(** * process-lifecycle: the lifecycle orchestrator of [src/mod.ts]

    A shallow embedding of the [ProcessLifecycle] class: its private fields
    become a record, its methods become state-passing functions, and
    [#executeLifecycle] is written in a small monad that threads the
    orchestrator state, JavaScript exceptions ([try]/[catch]/[throw]) and a
    log of what the outside world can observe (calls made to the
    caller-supplied callables, and calls made to event handlers).

    The runtime is represented as follows.
    - A caller-supplied callable is a function from its argument to what the
      invocation does ([Invocation]): return a value, throw, or return a
      promise.
    - A boot callable is handed the orchestrator itself.  What it reads from
      it (the abort signal, [booted], [getService]) is its [View]; the calls
      it makes on it before the race of its step is settled, to [on] and to
      [registerService], are listed with the registration ([hd_calls]) and
      are carried out on the orchestrator when the callable is invoked.  (A
      staged boot callable is invoked at most once, so the calls it makes are
      data of the registration.)  The [for ... of] loop of a boot pass
      iterates [#serviceRegistrationsStaged] itself, not a copy: a
      registration that such a call stages is visited by the same loop.
    - [await Promise.race([callable, per-service timer, global timer])] is
      decided by the scheduler; the model takes the winner of each race as
      part of the environment ([Settlement]), so every theorem below holds for
      every scheduling of the timers.  The [timeouts] array, which only serves
      to dispose of pending timers, has no counterpart.
    - An [async] method is run to completion; the promise it returns is
      represented by the way it settles ([Completion]): [Normal] is a
      resolved promise, [Throw e] a promise rejected with [e].  Calls to the
      public methods are taken one after the other, each awaited: no callable
      and no handler calls [boot()] or [shutdown()], so that two passes never
      interleave.
    - A handler is a function from its arguments to how the call ends: it
      returns, or it throws.  Handlers and shutdown callables, which are not
      handed the orchestrator, make no call on it.  (A handler is called any
      number of times: one that registered a service at each call would keep
      the loop of a boot pass running for ever.) *)

From Stdlib Require Import ZArith.
From stdpp Require Import gmap strings list.

Open Scope string_scope.
Open Scope list_scope.

#[local] Set Warnings "-register-all".

(** ** JavaScript values that cross the orchestrator's interface *)

Inductive ErrorClass :=
| ErrorC
| GlobalTimeoutExceededErrorC.

Inductive Value :=
| VUndefined
| VNum (n : Z)
| VStr (s : string)
| VError (cls : ErrorClass) (message : string) (cause : option Value)
| VAggregateError (message : string) (errors : list Value).

(** [response === s] for a string literal [s]. *)
Definition strict_eq_str (response : Value) (s : string) : bool :=
  match response with
  | VStr s' => bool_decide (s' = s)
  | _ => false
  end.

(** [error instanceof GlobalTimeoutExceededError]. *)
Definition instanceof_GlobalTimeoutExceededError (error : Value) : bool :=
  match error with
  | VError GlobalTimeoutExceededErrorC _ _ => true
  | _ => false
  end.

(** [error instanceof AggregateError]. *)
Definition instanceof_AggregateError (error : Value) : bool :=
  match error with
  | VAggregateError _ _ => true
  | _ => false
  end.

(** ** Callables, promises and races *)

(** Which of the three racers of a step settles first. *)
Inductive Settlement :=
| Fulfils (v : Value)        (* the callable's promise fulfils first, with [v] *)
| Rejects (e : Value)        (* the callable's promise rejects first, with [e] *)
| ServiceTimerWins           (* the per-service timer fires first *)
| GlobalTimerWins.           (* the global timer fires first *)

(** What invoking a caller-supplied callable does. *)
Inductive Invocation :=
| Returns (v : Value)                (* returns a value that is not a promise *)
| Throws (e : Value)                 (* throws synchronously *)
| ReturnsPromise (p : Settlement).   (* returns a promise *)

(** [wrapInPromise]: a returned promise is forwarded, a returned value
    resolves the new promise at once, a thrown exception rejects it. *)
Definition wrapInPromise {A : Type} (fn : A -> Invocation) : A -> Settlement :=
  fun args =>
    match fn args with
    | ReturnsPromise result => result
    | Returns result => Fulfils result
    | Throws error => Rejects error
    end.

(** The value the race settles with: the timers resolve with the strings
    ["timeout"] and ["global-timeout"]. *)
Inductive Settled :=
| Resolved (v : Value)
| Rejected (e : Value).

Definition race (s : Settlement) : Settled :=
  match s with
  | Fulfils v => Resolved v
  | Rejects e => Rejected e
  | ServiceTimerWins => Resolved (VStr "timeout")
  | GlobalTimerWins => Resolved (VStr "global-timeout")
  end.

(** ** Data model *)

Inductive Mode := Boot | Shutdown.

Definition is_boot (mode : Mode) : bool :=
  match mode with Boot => true | Shutdown => false end.

(** The keys of [ProcessLifecycleEvents]: [`${mode}Started`],
    [`${mode}ServiceStarted`], [`${mode}ServiceEnded`], [`${mode}Ended`]. *)
Inductive EventKey :=
| Started (mode : Mode)
| ServiceStarted (mode : Mode)
| ServiceEnded (mode : Mode)
| Ended (mode : Mode).

#[global] Instance Mode_eq_dec : EqDecision Mode.
Proof. solve_decision. Defined.

#[global] Instance EventKey_eq_dec : EqDecision EventKey.
Proof. solve_decision. Defined.

(** The argument list a handler is called with: nothing for [Started], one
    object literal otherwise, whose keys [name] and [error] may be absent. *)
Inductive Args :=
| NoArgs
| Obj (name : option string) (error : option Value).

(** A handler either returns ([None]) or throws ([Some e]). *)
Definition Handler : Type := Args -> option Value.

Record ProcessLifecycleOptions := {
  shutdownTimeout : option Z;
  bootTimeout : option Z
}.

Record RequiredOptions := {
  r_shutdownTimeout : Z;
  r_bootTimeout : Z
}.

(** What a boot callable can read from the orchestrator it is handed: the
    public getters [signal.aborted], [booted] and [getService]. *)
Record View := {
  v_aborted : bool;
  v_booted : bool;
  v_services : gmap string Value
}.

(** A call that a boot callable makes on the orchestrator [hd] it is handed:
    [hd.on(event, fn)] or [hd.registerService(serviceRegistration)]. *)
Inductive Callback (R : Type) : Type :=
| CallsOn (event : EventKey) (fn : Handler)
| CallsRegisterService (serviceRegistration : R).
Arguments CallsOn {R} event fn.
Arguments CallsRegisterService {R} serviceRegistration.

(** [ServiceRegistration], as passed to [registerService].  The boot callable
    is given by what it reads and returns ([boot]) and by the calls it makes
    on the orchestrator ([hd_calls]). *)
Inductive ServiceRegistration := {
  name : string;
  boot : View -> Invocation;
  hd_calls : list (Callback ServiceRegistration);
  shutdown : Value -> Invocation;
  timeout : option Z
}.

(** [Required<ServiceRegistration>], as staged by [registerService]. *)
Record StagedRegistration := {
  s_name : string;
  s_boot : View -> Settlement;
  s_hd_calls : list (Callback ServiceRegistration);
  s_shutdown : Value -> Settlement;
  s_timeout : Z
}.

(** How a promise returned by an [async] method settles, and how a block of
    statements completes. *)
Inductive Completion (A : Type) :=
| Normal (a : A)
| Throw (e : Value).
Arguments Normal {A} a.
Arguments Throw {A} e.

Record ProcessLifecycle := {
  aborted : bool;                                       (* #abortController.signal.aborted *)
  serviceRegistrationsStaged : list StagedRegistration; (* #serviceRegistrationsStaged *)
  serviceRegistrations : list StagedRegistration;       (* #serviceRegistrations *)
  services : gmap string Value;                         (* #services *)
  options : RequiredOptions;                            (* #options *)
  booted : bool;                                        (* #booted *)
  eventsHandlers : EventKey -> option Handler;          (* #eventsHandlers *)
  bootProcess : option (Completion unit);               (* [bootProcessSymbol] *)
  shutdownProcess : option (Completion unit)            (* [shutdownProcessSymbol] *)
}.

(** What the outside world observes of a run. *)
Inductive Obs :=
| Emitted (event : EventKey) (args : Args)            (* a handler was called *)
| BootCalled (sr : StagedRegistration) (this : View)  (* [sr.boot(this)] *)
| ShutdownCalled (sr : StagedRegistration) (data : Value). (* [sr.shutdown(data)] *)

(** ** Field updates *)

Definition set_aborted (b : bool) (pl : ProcessLifecycle) : ProcessLifecycle :=
  {| aborted := b;
     serviceRegistrationsStaged := serviceRegistrationsStaged pl;
     serviceRegistrations := serviceRegistrations pl;
     services := services pl;
     options := options pl;
     booted := booted pl;
     eventsHandlers := eventsHandlers pl;
     bootProcess := bootProcess pl;
     shutdownProcess := shutdownProcess pl |}.

Definition set_staged (l : list StagedRegistration) (pl : ProcessLifecycle)
  : ProcessLifecycle :=
  {| aborted := aborted pl;
     serviceRegistrationsStaged := l;
     serviceRegistrations := serviceRegistrations pl;
     services := services pl;
     options := options pl;
     booted := booted pl;
     eventsHandlers := eventsHandlers pl;
     bootProcess := bootProcess pl;
     shutdownProcess := shutdownProcess pl |}.

Definition set_registrations (l : list StagedRegistration) (pl : ProcessLifecycle)
  : ProcessLifecycle :=
  {| aborted := aborted pl;
     serviceRegistrationsStaged := serviceRegistrationsStaged pl;
     serviceRegistrations := l;
     services := services pl;
     options := options pl;
     booted := booted pl;
     eventsHandlers := eventsHandlers pl;
     bootProcess := bootProcess pl;
     shutdownProcess := shutdownProcess pl |}.

Definition set_services (m : gmap string Value) (pl : ProcessLifecycle)
  : ProcessLifecycle :=
  {| aborted := aborted pl;
     serviceRegistrationsStaged := serviceRegistrationsStaged pl;
     serviceRegistrations := serviceRegistrations pl;
     services := m;
     options := options pl;
     booted := booted pl;
     eventsHandlers := eventsHandlers pl;
     bootProcess := bootProcess pl;
     shutdownProcess := shutdownProcess pl |}.

Definition set_booted (b : bool) (pl : ProcessLifecycle) : ProcessLifecycle :=
  {| aborted := aborted pl;
     serviceRegistrationsStaged := serviceRegistrationsStaged pl;
     serviceRegistrations := serviceRegistrations pl;
     services := services pl;
     options := options pl;
     booted := b;
     eventsHandlers := eventsHandlers pl;
     bootProcess := bootProcess pl;
     shutdownProcess := shutdownProcess pl |}.

Definition set_eventsHandlers (h : EventKey -> option Handler) (pl : ProcessLifecycle)
  : ProcessLifecycle :=
  {| aborted := aborted pl;
     serviceRegistrationsStaged := serviceRegistrationsStaged pl;
     serviceRegistrations := serviceRegistrations pl;
     services := services pl;
     options := options pl;
     booted := booted pl;
     eventsHandlers := h;
     bootProcess := bootProcess pl;
     shutdownProcess := shutdownProcess pl |}.

Definition set_bootProcess (p : option (Completion unit)) (pl : ProcessLifecycle)
  : ProcessLifecycle :=
  {| aborted := aborted pl;
     serviceRegistrationsStaged := serviceRegistrationsStaged pl;
     serviceRegistrations := serviceRegistrations pl;
     services := services pl;
     options := options pl;
     booted := booted pl;
     eventsHandlers := eventsHandlers pl;
     bootProcess := p;
     shutdownProcess := shutdownProcess pl |}.

Definition set_shutdownProcess (p : option (Completion unit)) (pl : ProcessLifecycle)
  : ProcessLifecycle :=
  {| aborted := aborted pl;
     serviceRegistrationsStaged := serviceRegistrationsStaged pl;
     serviceRegistrations := serviceRegistrations pl;
     services := services pl;
     options := options pl;
     booted := booted pl;
     eventsHandlers := eventsHandlers pl;
     bootProcess := bootProcess pl;
     shutdownProcess := p |}.

(** ** The monad of method bodies: state, exceptions, observations *)

Definition M (A : Type) : Type :=
  ProcessLifecycle -> Completion A * ProcessLifecycle * list Obs.

Definition ret {A} (a : A) : M A := fun pl => (Normal a, pl, []).

Definition throw {A} (e : Value) : M A := fun pl => (Throw e, pl, []).

Definition bind {A B} (m : M A) (k : A -> M B) : M B :=
  fun pl =>
    match m pl with
    | (Normal a, pl1, o1) =>
        let '(c, pl2, o2) := k a pl1 in (c, pl2, o1 ++ o2)
    | (Throw e, pl1, o1) => (Throw e, pl1, o1)
    end.

(** [try { body } catch (error) { handler }] *)
Definition try_catch {A} (body : M A) (handler : Value -> M A) : M A :=
  fun pl =>
    match body pl with
    | (Normal a, pl1, o1) => (Normal a, pl1, o1)
    | (Throw e, pl1, o1) =>
        let '(c, pl2, o2) := handler e pl1 in (c, pl2, o1 ++ o2)
    end.

Definition get : M ProcessLifecycle := fun pl => (Normal pl, pl, []).

Definition modify (f : ProcessLifecycle -> ProcessLifecycle) : M unit :=
  fun pl => (Normal tt, f pl, []).

Definition observe (o : Obs) : M unit := fun pl => (Normal tt, pl, [o]).

Declare Scope lifecycle_scope.
Delimit Scope lifecycle_scope with lifecycle.
Notation "x <- m ;; k" := (bind m (fun x => k))
  (at level 100, m at next level, right associativity) : lifecycle_scope.
Notation "m ;; k" := (bind m (fun _ => k))
  (at level 100, right associativity) : lifecycle_scope.
Open Scope lifecycle_scope.

(** [for (const x of l) { body x }] *)
Fixpoint for_of {A} (l : list A) (body : A -> M unit) : M unit :=
  match l with
  | [] => ret tt
  | x :: rest => body x ;; for_of rest body
  end.

(** Projections of a run. *)
Definition completion_of {A} (r : Completion A * ProcessLifecycle * list Obs)
  : Completion A := r.1.1.
Definition state_of {A} (r : Completion A * ProcessLifecycle * list Obs)
  : ProcessLifecycle := r.1.2.
Definition obs_of {A} (r : Completion A * ProcessLifecycle * list Obs)
  : list Obs := r.2.

(** ** The class *)

(** [new ProcessLifecycle(options)] *)
Definition new (opts : option ProcessLifecycleOptions) : ProcessLifecycle :=
  {| aborted := false;
     serviceRegistrationsStaged := [];
     serviceRegistrations := [];
     services := ∅;
     options :=
       {| r_shutdownTimeout :=
            default 15000%Z (o ← opts; shutdownTimeout o);
          r_bootTimeout :=
            default 15000%Z (o ← opts; bootTimeout o) |};
     booted := false;
     eventsHandlers := fun _ => None;
     bootProcess := None;
     shutdownProcess := None |}.

(** [get signal().aborted], [get booted()], [getService(name)]; a missing
    key of a [Map] reads as [undefined]. *)
Definition view_of (pl : ProcessLifecycle) : View :=
  {| v_aborted := aborted pl; v_booted := booted pl; v_services := services pl |}.

Definition getService (nm : string) (pl : ProcessLifecycle) : Value :=
  default VUndefined (services pl !! nm).

Definition view_getService (nm : string) (v : View) : Value :=
  default VUndefined (v_services v !! nm).

(** [on(event, fn)] *)
Definition on (event : EventKey) (fn : Handler) (pl : ProcessLifecycle)
  : ProcessLifecycle :=
  set_eventsHandlers
    (fun k => if decide (k = event) then Some fn else eventsHandlers pl k) pl.

(** The object [registerService] pushes: the registration with its
    callables wrapped and its timeout defaulted. *)
Definition stage (serviceRegistration : ServiceRegistration) : StagedRegistration :=
  {| s_name := name serviceRegistration;
     s_boot := wrapInPromise (boot serviceRegistration);
     s_hd_calls := hd_calls serviceRegistration;
     s_shutdown := wrapInPromise (shutdown serviceRegistration);
     s_timeout := default 5000%Z (timeout serviceRegistration) |}.

(** [registerService(serviceRegistration)] *)
Definition registerService (serviceRegistration : ServiceRegistration)
    (pl : ProcessLifecycle) : ProcessLifecycle :=
  if aborted pl then pl
  else set_staged (serviceRegistrationsStaged pl ++ [stage serviceRegistration]) pl.

(** The calls a boot callable makes on the orchestrator, carried out in
    order. *)
Definition call_hd (cb : Callback ServiceRegistration) (pl : ProcessLifecycle)
  : ProcessLifecycle :=
  match cb with
  | CallsOn event fn => on event fn pl
  | CallsRegisterService serviceRegistration => registerService serviceRegistration pl
  end.

Definition called_back (calls : list (Callback ServiceRegistration))
    (pl : ProcessLifecycle) : ProcessLifecycle :=
  foldl (fun pl cb => call_hd cb pl) pl calls.

(** [this.#getHandler(event)?.(...args)] *)
Definition emit (event : EventKey) (args : Args) : M unit :=
  fun pl =>
    match eventsHandlers pl event with
    | None => (Normal tt, pl, [])
    | Some fn =>
        match fn args with
        | None => (Normal tt, pl, [Emitted event args])
        | Some e => (Throw e, pl, [Emitted event args])
        end
    end.

(** [await Promise.race([callable(...), timeout(...), globalTimeout])]: the
    callable is invoked while the array is built, a boot callable making its
    calls on the orchestrator; awaiting a rejected race throws. *)
Definition await_race (mode : Mode) (serviceRegistration : StagedRegistration)
  : M Value :=
  pl <- get ;;
  settled <-
    match mode with
    | Shutdown =>
        let data := getService (s_name serviceRegistration) pl in
        observe (ShutdownCalled serviceRegistration data) ;;
        ret (race (s_shutdown serviceRegistration data))
    | Boot =>
        observe (BootCalled serviceRegistration (view_of pl)) ;;
        modify (called_back (s_hd_calls serviceRegistration)) ;;
        ret (race (s_boot serviceRegistration (view_of pl)))
    end ;;
  match settled with
  | Resolved response => ret response
  | Rejected error => throw error
  end.

(** The body of the [for] loop of [#executeLifecycle]. *)
Definition lifecycle_step (mode : Mode) (serviceRegistration : StagedRegistration)
  : M unit :=
  emit (ServiceStarted mode) (Obj (Some (s_name serviceRegistration)) None) ;;
  try_catch
    (response <- await_race mode serviceRegistration ;;
     (if strict_eq_str response "timeout"
      then throw (VError ErrorC "Service boot timeout exceeded" None)
      else ret tt) ;;
     (if strict_eq_str response "global-timeout"
      then throw (VError GlobalTimeoutExceededErrorC "Global timeout exceeded" None)
      else ret tt) ;;
     match mode with
     | Shutdown =>
         modify (fun pl =>
           set_services (delete (s_name serviceRegistration) (services pl)) pl)
     | Boot =>
         modify (fun pl =>
           set_registrations (serviceRegistrations pl ++ [serviceRegistration]) pl) ;;
         modify (fun pl =>
           set_services (<[s_name serviceRegistration := response]> (services pl)) pl)
     end ;;
     emit (ServiceEnded mode) (Obj (Some (s_name serviceRegistration)) None))
    (fun error =>
       emit (ServiceEnded mode)
            (Obj (Some (s_name serviceRegistration)) (Some error)) ;;
       if is_boot mode || instanceof_GlobalTimeoutExceededError error
       then throw error
       else ret tt).

(** [for (const serviceRegistration of serviceRegistrations)] in shutdown
    mode: [serviceRegistrations] is the copy made by [toReversed()]. *)
Definition shutdown_loop (regs : list StagedRegistration) : M unit :=
  for_of regs (lifecycle_step Shutdown).

(** The same statement in boot mode: [serviceRegistrations] is the array
    [#serviceRegistrationsStaged] itself, which the iterator reads at each
    step, so the loop goes on to the registrations staged while it runs.
    [fuel] bounds the number of iterations. *)
Fixpoint boot_loop (fuel : nat) (index : nat) : M unit :=
  match fuel with
  | 0 => ret tt
  | S fuel =>
      pl <- get ;;
      match serviceRegistrationsStaged pl !! index with
      | None => ret tt
      | Some serviceRegistration =>
          lifecycle_step Boot serviceRegistration ;;
          boot_loop fuel (S index)
      end
  end.

(** The number of iterations a registration accounts for: its own, and those
    of the registrations its boot callable stages, and so on. *)
Fixpoint iterations_of (sr : ServiceRegistration) : nat :=
  S (list_sum (map (fun cb =>
                      match cb with
                      | CallsRegisterService sr' => iterations_of sr'
                      | CallsOn _ _ => 0
                      end) (hd_calls sr))).

Definition calls_iterations (calls : list (Callback ServiceRegistration)) : nat :=
  list_sum (map (fun cb =>
                   match cb with
                   | CallsRegisterService sr' => iterations_of sr'
                   | CallsOn _ _ => 0
                   end) calls).

Definition staged_iterations (regs : list StagedRegistration) : nat :=
  list_sum (map (fun sr => S (calls_iterations (s_hd_calls sr))) regs).

(** The loop of a pass.  In boot mode the fuel is the number of
    iterations that the staged registrations account for, which is as many
    as the loop can make (lemma [boot_loop_fuel]). *)
Definition lifecycle_loop (mode : Mode) (pl : ProcessLifecycle) : M unit :=
  match mode with
  | Shutdown => shutdown_loop (reverse (serviceRegistrations pl))
  | Boot => boot_loop (staged_iterations (serviceRegistrationsStaged pl)) 0
  end.

(** [#executeLifecycle(mode)], with the recursive call [this.#executeLifecycle
    ("shutdown")] of the [catch] block passed as [self_shutdown]. *)
Definition executeLifecycle_body (self_shutdown : M unit) (mode : Mode) : M unit :=
  pl <- get ;;
  (match mode with
   | Shutdown => modify (set_aborted true)
   | Boot => ret tt
   end) ;;
  try_catch
    (emit (Started mode) NoArgs ;;
     lifecycle_loop mode pl ;;
     modify (set_booted (is_boot mode)) ;;
     emit (Ended mode) (Obj None None))
    (fun error =>
       emit (Ended mode) (Obj None (Some error)) ;;
       match mode with
       | Boot => self_shutdown
       | Shutdown => ret tt
       end).

(** The recursion only goes from ["boot"] to ["shutdown"], and a shutdown
    pass never recurses, so two unfoldings tie the knot. *)
Definition executeLifecycle (mode : Mode) : M unit :=
  executeLifecycle_body (executeLifecycle_body (ret tt) Shutdown) mode.

(** [boot()] and [shutdown()]: the result is the promise handed back.  (The
    names [boot] and [shutdown] are those of the fields of a registration.) *)
Definition boot_ : M (Completion unit) :=
  fun pl =>
    match bootProcess pl with
    | Some p => (Normal p, pl, [])
    | None =>
        let '(c, pl', o) := executeLifecycle Boot pl in
        (Normal c, set_bootProcess (Some c) pl', o)
    end.

Definition shutdown_ : M (Completion unit) :=
  fun pl =>
    match shutdownProcess pl with
    | Some p => (Normal p, pl, [])
    | None =>
        let '(c, pl', o) := executeLifecycle Shutdown pl in
        (Normal c, set_shutdownProcess (Some c) pl', o)
    end.

(** A sequence of calls to the public methods, each awaited before the
    next. *)
Inductive Call :=
| CallOn (event : EventKey) (fn : Handler)
| CallRegisterService (serviceRegistration : ServiceRegistration)
| CallBoot
| CallShutdown.

Definition run_call (c : Call) (st : ProcessLifecycle * list Obs)
  : ProcessLifecycle * list Obs :=
  match c with
  | CallOn event fn => (on event fn st.1, st.2)
  | CallRegisterService sr => (registerService sr st.1, st.2)
  | CallBoot => let r := boot_ st.1 in (state_of r, st.2 ++ obs_of r)
  | CallShutdown => let r := shutdown_ st.1 in (state_of r, st.2 ++ obs_of r)
  end.

Definition run_calls (cs : list Call) (pl : ProcessLifecycle)
  : ProcessLifecycle * list Obs :=
  foldl (fun st c => run_call c st) (pl, []) cs.

(** ** Reading a log *)

Definition boot_calls (o : list Obs) : list (StagedRegistration * View) :=
  omap (fun x => match x with BootCalled sr this => Some (sr, this) | _ => None end) o.

Definition shutdown_calls (o : list Obs) : list (StagedRegistration * Value) :=
  omap (fun x => match x with ShutdownCalled sr data => Some (sr, data) | _ => None end) o.

Definition emissions (event : EventKey) (o : list Obs) : list Args :=
  omap (fun x =>
          match x with
          | Emitted event' args => if decide (event' = event) then Some args else None
          | _ => None
          end) o.

(** Every handler call of a log, in order. *)
Definition handler_calls (o : list Obs) : list (EventKey * Args) :=
  omap (fun x => match x with Emitted event args => Some (event, args) | _ => None end) o.

(** How a step ends, read off the two tests on [response] and the [catch]:
    [inl response] when the step reaches its success branch, [inr error] when
    it enters the [catch] block with [error]. *)
Definition step_outcome (s : Settlement) : Value + Value :=
  match race s with
  | Rejected error => inr error
  | Resolved response =>
      if strict_eq_str response "timeout"
      then inr (VError ErrorC "Service boot timeout exceeded" None)
      else if strict_eq_str response "global-timeout"
      then inr (VError GlobalTimeoutExceededErrorC "Global timeout exceeded" None)
      else inl response
  end.

(** The settlement of the callable a step of [mode] invokes. *)
Definition boot_settlement (call : StagedRegistration * View) : Settlement :=
  s_boot call.1 call.2.

Definition shutdown_settlement (call : StagedRegistration * Value) : Settlement :=
  s_shutdown call.1 call.2.

(** The failed steps of a log, per mode: service name and error. *)
Definition failure_of {A} (settlement : StagedRegistration * A -> Settlement)
    (call : StagedRegistration * A) : option (string * Value) :=
  match step_outcome (settlement call) with
  | inl _ => None
  | inr error => Some (s_name call.1, error)
  end.

Definition failures (mode : Mode) (o : list Obs) : list (string * Value) :=
  match mode with
  | Boot => omap (failure_of boot_settlement) (boot_calls o)
  | Shutdown => omap (failure_of shutdown_settlement) (shutdown_calls o)
  end.

(** The boot steps of a log that succeeded, with the value each produced. *)
Definition boot_successes (calls : list (StagedRegistration * View))
  : list (StagedRegistration * Value) :=
  omap (fun call =>
          match step_outcome (boot_settlement call) with
          | inl response => Some (call.1, response)
          | inr _ => None
          end) calls.

(** The names of the services whose shutdown step succeeded. *)
Definition shutdown_successes (calls : list (StagedRegistration * Value))
  : list string :=
  omap (fun call =>
          match step_outcome (shutdown_settlement call) with
          | inl _ => Some (s_name call.1)
          | inr _ => None
          end) calls.

(** No registered handler throws. *)
Definition handlers_quiet (pl : ProcessLifecycle) : Prop :=
  forall event fn args, eventsHandlers pl event = Some fn -> fn args = None.

(** No handler that a boot callable registers throws, nor any that the boot
    callable of a registration it stages registers, and so on. *)
Fixpoint quiet_registration (sr : ServiceRegistration) : Prop :=
  foldr (fun cb rest =>
           match cb with
           | CallsOn _ fn => forall args, fn args = None
           | CallsRegisterService sr' => quiet_registration sr'
           end /\ rest) True (hd_calls sr).

Definition quiet_calls (calls : list (Callback ServiceRegistration)) : Prop :=
  foldr (fun cb rest =>
           match cb with
           | CallsOn _ fn => forall args, fn args = None
           | CallsRegisterService sr' => quiet_registration sr'
           end /\ rest) True calls.

(** No handler throws: neither the registered ones, nor those that the
    boot callables of the staged registrations will register. *)
Definition quiet (pl : ProcessLifecycle) : Prop :=
  handlers_quiet pl /\
  Forall (fun sr => quiet_calls (s_hd_calls sr)) (serviceRegistrationsStaged pl).

(** The registrations that the calls of a boot callable hand to
    [registerService]. *)
Definition registrations_of (calls : list (Callback ServiceRegistration))
  : list ServiceRegistration :=
  omap (fun cb =>
          match cb with
          | CallsRegisterService sr => Some sr
          | CallsOn _ _ => None
          end) calls.

(** The registrations that the boot callables of a list of calls stage, in
    the order of the calls. *)
Definition staged_by (calls : list (StagedRegistration * View))
  : list StagedRegistration :=
  calls ≫= (fun call => stage <$> registrations_of (s_hd_calls call.1)).

(** What [emit] adds to the log: a handler is called only if one is set. *)
Definition emitted (event : EventKey) (args : Args) (pl : ProcessLifecycle)
  : list Obs :=
  match eventsHandlers pl event with
  | Some _ => [Emitted event args]
  | None => []
  end.

(** The state a successful step leaves. *)
Definition booted_state (sr : StagedRegistration) (response : Value)
    (pl : ProcessLifecycle) : ProcessLifecycle :=
  let pl := called_back (s_hd_calls sr) pl in
  set_services (<[s_name sr := response]> (services pl))
    (set_registrations (serviceRegistrations pl ++ [sr]) pl).

Definition shut_state (sr : StagedRegistration) (pl : ProcessLifecycle)
  : ProcessLifecycle :=
  set_services (delete (s_name sr) (services pl)) pl.

(** What a shutdown step adds to the log when no handler throws: the
    [shutdownServiceStarted] call, the callable, the [shutdownServiceEnded]
    call. *)
Definition step_log (sr : StagedRegistration) (data : Value)
    (error : option Value) (pl : ProcessLifecycle) : list Obs :=
  emitted (ServiceStarted Shutdown) (Obj (Some (s_name sr)) None) pl ++
  ShutdownCalled sr data ::
  emitted (ServiceEnded Shutdown) (Obj (Some (s_name sr)) error) pl.

(** ** Vocabulary of the proofs *)

(** A method body relates the state it starts from, the state it leaves and
    the log it produces by [P], however it completes. *)
Definition tracks {A}
    (P : ProcessLifecycle -> ProcessLifecycle -> list Obs -> Prop) (m : M A) : Prop :=
  forall pl, P pl (state_of (m pl)) (obs_of (m pl)).

(** A method body leaves the field (or any function of the state) [f]
    as it found it. *)
Definition preserves {A B} (f : ProcessLifecycle -> B) (m : M A) : Prop :=
  forall pl, f (state_of (m pl)) = f pl.

(** The boot loop as a relation between the index it has reached, the
    state, and the completion, final state and log: the loop ends when the
    index is past the end of the staged list as it stands, and at the first
    step that throws. *)
Inductive boot_run : nat -> ProcessLifecycle ->
    Completion unit -> ProcessLifecycle -> list Obs -> Prop :=
| boot_run_done i pl :
    serviceRegistrationsStaged pl !! i = None ->
    boot_run i pl (Normal tt) pl []
| boot_run_step i pl sr pl1 o1 c pl' o :
    serviceRegistrationsStaged pl !! i = Some sr ->
    lifecycle_step Boot sr pl = (Normal tt, pl1, o1) ->
    boot_run (S i) pl1 c pl' o ->
    boot_run i pl c pl' (o1 ++ o)
| boot_run_stop i pl sr e pl1 o1 :
    serviceRegistrationsStaged pl !! i = Some sr ->
    lifecycle_step Boot sr pl = (Throw e, pl1, o1) ->
    boot_run i pl (Throw e) pl1 o1.

(** The shutdown loop, when no handler throws, as a relation between the
    registrations still to process, the state, and the completion, final
    state and log: one rule per way a step can end. *)
Inductive shutdown_run : list StagedRegistration -> ProcessLifecycle ->
    Completion unit -> ProcessLifecycle -> list Obs -> Prop :=
| run_done pl :
    shutdown_run [] pl (Normal tt) pl []
| run_shut sr rest pl response c pl' o :
    step_outcome (s_shutdown sr (getService (s_name sr) pl)) = inl response ->
    shutdown_run rest (shut_state sr pl) c pl' o ->
    shutdown_run (sr :: rest) pl c pl'
      (step_log sr (getService (s_name sr) pl) None pl ++ o)
| run_shut_failed sr rest pl error c pl' o :
    step_outcome (s_shutdown sr (getService (s_name sr) pl)) = inr error ->
    instanceof_GlobalTimeoutExceededError error = false ->
    shutdown_run rest pl c pl' o ->
    shutdown_run (sr :: rest) pl c pl'
      (step_log sr (getService (s_name sr) pl) (Some error) pl ++ o)
| run_shut_aborted sr rest pl error :
    step_outcome (s_shutdown sr (getService (s_name sr) pl)) = inr error ->
    instanceof_GlobalTimeoutExceededError error = true ->
    shutdown_run (sr :: rest) pl (Throw error) pl
      (step_log sr (getService (s_name sr) pl) (Some error) pl).

(** The state in which the [try] statement of a pass starts. *)
Definition pass_start (mode : Mode) (pl : ProcessLifecycle) : ProcessLifecycle :=
  match mode with
  | Shutdown => set_aborted true pl
  | Boot => pl
  end.

(** [#services] after the results of a list of successful boot steps have
    been stored, oldest first. *)
Definition store_results (m : gmap string Value)
    (results : list (StagedRegistration * Value)) : gmap string Value :=
  foldl (fun m p => <[s_name p.1 := p.2]> m) m results.

(** What boot steps do to the registries, read off the log: the
    registrations of the steps that succeeded are activated, in order, and
    their results stored; no shutdown callable is invoked. *)
Definition boot_effect (pl pl' : ProcessLifecycle) (o : list Obs) : Prop :=
  shutdown_calls o = [] /\
  serviceRegistrations pl' =
    serviceRegistrations pl ++ (boot_successes (boot_calls o)).*1 /\
  services pl' = store_results (services pl) (boot_successes (boot_calls o)).

(** What shutdown steps do to the registries, read off the log: the
    results of the services whose step succeeded are removed, and nothing
    else changes but [#booted] and the abort flag; no boot callable is
    invoked. *)
Definition shutdown_effect (pl pl' : ProcessLifecycle) (o : list Obs) : Prop :=
  boot_calls o = [] /\
  eventsHandlers pl' = eventsHandlers pl /\
  serviceRegistrationsStaged pl' = serviceRegistrationsStaged pl /\
  serviceRegistrations pl' = serviceRegistrations pl /\
  forall nm,
    services pl' !! nm =
    if bool_decide (nm ∈ shutdown_successes (shutdown_calls o))
    then None else services pl !! nm.

(** What boot steps do to the staged list, read off the log: the
    registrations that the boot callables invoked hand to [registerService]
    are appended, unless the abort signal is set. *)
Definition staging_effect (pl pl' : ProcessLifecycle) (o : list Obs) : Prop :=
  aborted pl' = aborted pl /\
  serviceRegistrationsStaged pl' =
    serviceRegistrationsStaged pl ++
    (if aborted pl then [] else staged_by (boot_calls o)).

(** The staged list only grows: what it held it still holds, in the same
    order. *)
Definition staged_grows (pl pl' : ProcessLifecycle) : Prop :=
  serviceRegistrationsStaged pl `prefix_of` serviceRegistrationsStaged pl'.


Definition ended_error (c : Completion unit) : option Value :=
  match c with
  | Normal _ => None
  | Throw e => Some e
  end.

(** The state and the log a shutdown pass leaves when no handler throws,
    given how its loop ended. *)
Definition pass_end (c : Completion unit) (pl1 : ProcessLifecycle)
  : ProcessLifecycle :=
  match c with
  | Normal _ => set_booted false pl1
  | Throw _ => pl1
  end.

Definition pass_log (c : Completion unit) (o1 : list Obs)
    (pl : ProcessLifecycle) : list Obs :=
  emitted (Started Shutdown) NoArgs pl ++ o1 ++
  emitted (Ended Shutdown) (Obj None (ended_error c)) pl.

(** An orchestrator on which [boot()] has not been called yet. *)
Definition pristine (pl : ProcessLifecycle) : Prop :=
  bootProcess pl = None /\ booted pl = false /\
  serviceRegistrations pl = [] /\ services pl = ∅.

(** [error.cause] *)
Definition error_cause (error : Value) : option Value :=
  match error with
  | VError _ _ cause => cause
  | _ => None
  end.

(** [error.message] *)
Definition error_message (error : Value) : option string :=
  match error with
  | VError _ message _ => Some message
  | VAggregateError message _ => Some message
  | _ => None
  end.

(** ** Scenarios, after the repository's test suite *)

Definition quiet_handler : Handler := fun _ => None.

Definition throwing_handler : Handler :=
  fun _ => Some (VError ErrorC "handler failed" None).

(** [pc.on(...)] for each of the eight events, with the same handler. *)
Definition on_every_event (fn : Handler) (pl : ProcessLifecycle) : ProcessLifecycle :=
  on (Ended Shutdown) fn (on (ServiceEnded Shutdown) fn
  (on (ServiceStarted Shutdown) fn (on (Started Shutdown) fn
  (on (Ended Boot) fn (on (ServiceEnded Boot) fn
  (on (ServiceStarted Boot) fn (on (Started Boot) fn pl))))))).

(** [{ name: "foo", boot: () => 1, shutdown: () => {} }] *)
Definition foo : ServiceRegistration :=
  {| name := "foo";
     boot := fun _ => Returns (VNum 1);
     hd_calls := [];
     shutdown := fun _ => Returns VUndefined;
     timeout := None |}.

(** [{ name: "bar", boot: () => { throw new Error("foo") }, shutdown: () => {} }] *)
Definition bar_boot_throws : ServiceRegistration :=
  {| name := "bar";
     boot := fun _ => Throws (VError ErrorC "foo" None);
     hd_calls := [];
     shutdown := fun _ => Returns VUndefined;
     timeout := None |}.

(** [{ name: "bar", boot: () => 2, shutdown: () => { throw new Error("foo") } }] *)
Definition bar_shutdown_throws : ServiceRegistration :=
  {| name := "bar";
     boot := fun _ => Returns (VNum 2);
     hd_calls := [];
     shutdown := fun _ => Throws (VError ErrorC "foo" None);
     timeout := None |}.

(** [{ name: "bar", boot: () => 2, shutdown: () => new Promise(...), timeout:
    6000 }] under a global shutdown timeout of 5000: the promise is still
    pending when the global timer fires. *)
Definition bar_shutdown_hangs : ServiceRegistration :=
  {| name := "bar";
     boot := fun _ => Returns (VNum 2);
     hd_calls := [];
     shutdown := fun _ => ReturnsPromise GlobalTimerWins;
     timeout := Some 6000%Z |}.

(** [{ name: "bar", boot: () => 2, shutdown: () => new Promise(...) }]
    under the default timeouts: the promise is still pending when the timer
    of the service fires. *)
Definition bar_shutdown_slow : ServiceRegistration :=
  {| name := "bar";
     boot := fun _ => Returns (VNum 2);
     hd_calls := [];
     shutdown := fun _ => ReturnsPromise ServiceTimerWins;
     timeout := None |}.

(** [{ name: "bar", boot: () => 2, shutdown: () => "global-timeout" }]: a
    shutdown callable that returns the string the global timer resolves
    with. *)
Definition bar_shutdown_returns_global_timeout : ServiceRegistration :=
  {| name := "bar";
     boot := fun _ => Returns (VNum 2);
     hd_calls := [];
     shutdown := fun _ => Returns (VStr "global-timeout");
     timeout := None |}.

(** A second registration under the name ["foo"], whose shutdown callable
    throws. *)
Definition foo_again : ServiceRegistration :=
  {| name := "foo";
     boot := fun _ => Returns (VNum 7);
     hd_calls := [];
     shutdown := fun _ => Throws (VError ErrorC "y" None);
     timeout := None |}.

(** [{ name: "late", boot: () => 3, shutdown: () => {} }] *)
Definition late : ServiceRegistration :=
  {| name := "late";
     boot := fun _ => Returns (VNum 3);
     hd_calls := [];
     shutdown := fun _ => Returns VUndefined;
     timeout := None |}.

(** [{ name: "foo", boot: (hd) => { hd.registerService(late); return 1 },
    shutdown: () => {} }] *)
Definition foo_registers_late : ServiceRegistration :=
  {| name := "foo";
     boot := fun _ => Returns (VNum 1);
     hd_calls := [CallsRegisterService late];
     shutdown := fun _ => Returns VUndefined;
     timeout := None |}.

(** [{ name: "foo", boot: (hd) => { hd.on("bootServiceEnded", () => { throw
    new Error("handler failed") }); return 1 }, shutdown: () => {} }] *)
Definition foo_registers_handler : ServiceRegistration :=
  {| name := "foo";
     boot := fun _ => Returns (VNum 1);
     hd_calls := [CallsOn (ServiceEnded Boot) throwing_handler];
     shutdown := fun _ => Returns VUndefined;
     timeout := None |}.

Definition short_shutdown : option ProcessLifecycleOptions :=
  Some {| shutdownTimeout := Some 5000%Z; bootTimeout := None |}.

(** foo boots, bar fails to boot. *)
Definition failed_boot : ProcessLifecycle :=
  on_every_event quiet_handler
    (registerService bar_boot_throws (registerService foo (new None))).

(** foo and bar boot. *)
Definition two_services (bar : ServiceRegistration) : ProcessLifecycle :=
  on_every_event quiet_handler
    (registerService bar (registerService foo (new short_shutdown))).


(** bar fails to boot first, foo is registered after it. *)
Definition failed_first_boot : ProcessLifecycle :=
  on_every_event quiet_handler
    (registerService foo (registerService bar_boot_throws (new None))).

(** foo is registered, and registers late while it boots; bar is registered
    after foo. *)
Definition registers_while_booting : ProcessLifecycle :=
  on_every_event quiet_handler
    (registerService bar_shutdown_throws
       (registerService foo_registers_late (new None))).

(** foo and bar have booted; bar's shutdown callable throws. *)
Definition booted_bar_throws : ProcessLifecycle :=
  state_of (boot_ (two_services bar_shutdown_throws)).

(** foo and bar have booted; bar's shutdown callable outlasts the global
    shutdown timeout. *)
Definition booted_bar_hangs : ProcessLifecycle :=
  state_of (boot_ (two_services bar_shutdown_hangs)).

(** foo and bar have booted; bar's shutdown callable outlasts the timeout
    of the service. *)
Definition booted_bar_slow : ProcessLifecycle :=
  state_of (boot_ (on_every_event quiet_handler
                     (registerService bar_shutdown_slow
                        (registerService foo (new None))))).

(** * Proofs *)

(** The handlers of a concrete orchestrator do not throw. *)
Ltac solve_handlers_quiet :=
  let event := fresh "event" in
  let fn := fresh "fn" in
  let args := fresh "args" in
  let Hfn := fresh "Hfn" in
  intros event fn args Hfn;
  destruct event as [[]|[]|[]|[]]; vm_compute in Hfn; by inversion Hfn.

Ltac solve_quiet :=
  split; [solve_handlers_quiet|vm_compute; repeat (constructor || intro)].

(** ** Reading the log of a step *)

Lemma boot_calls_app o1 o2 : boot_calls (o1 ++ o2) = boot_calls o1 ++ boot_calls o2.
Proof. apply omap_app. Qed.

Lemma shutdown_calls_app o1 o2 :
  shutdown_calls (o1 ++ o2) = shutdown_calls o1 ++ shutdown_calls o2.
Proof. apply omap_app. Qed.

Lemma emissions_app event o1 o2 :
  emissions event (o1 ++ o2) = emissions event o1 ++ emissions event o2.
Proof. apply omap_app. Qed.

Lemma failures_app mode o1 o2 :
  failures mode (o1 ++ o2) = failures mode o1 ++ failures mode o2.
Proof.
  destruct mode; unfold failures.
  - by rewrite boot_calls_app, omap_app.
  - by rewrite shutdown_calls_app, omap_app.
Qed.

Lemma boot_calls_emitted event args pl : boot_calls (emitted event args pl) = [].
Proof. unfold emitted. by destruct (eventsHandlers pl event). Qed.

Lemma shutdown_calls_emitted event args pl :
  shutdown_calls (emitted event args pl) = [].
Proof. unfold emitted. by destruct (eventsHandlers pl event). Qed.

Lemma failures_emitted mode event args pl : failures mode (emitted event args pl) = [].
Proof.
  destruct mode; unfold failures;
    by rewrite ?boot_calls_emitted, ?shutdown_calls_emitted.
Qed.

Lemma shutdown_calls_step_log sr data error pl :
  shutdown_calls (step_log sr data error pl) = [(sr, data)].
Proof.
  unfold step_log. rewrite shutdown_calls_app, shutdown_calls_emitted. simpl.
  change (omap _ ?l) with (shutdown_calls l). by rewrite shutdown_calls_emitted.
Qed.

Lemma boot_calls_step_log sr data error pl :
  boot_calls (step_log sr data error pl) = [].
Proof.
  unfold step_log. rewrite boot_calls_app, boot_calls_emitted. simpl.
  change (omap _ ?l) with (boot_calls l). by rewrite boot_calls_emitted.
Qed.

Lemma failures_shutdown_step sr data error pl :
  failures Shutdown (step_log sr data error pl) =
  match step_outcome (s_shutdown sr data) with
  | inl _ => []
  | inr e => [(s_name sr, e)]
  end.
Proof.
  unfold failures. rewrite shutdown_calls_step_log. simpl.
  unfold failure_of, shutdown_settlement. simpl.
  by destruct (step_outcome (s_shutdown sr data)).
Qed.

Lemma failures_boot_shutdown_step sr data error pl :
  failures Boot (step_log sr data error pl) = [].
Proof. unfold failures. by rewrite boot_calls_step_log. Qed.

Lemma boot_calls_cons_emitted event args o :
  boot_calls (Emitted event args :: o) = boot_calls o.
Proof. reflexivity. Qed.

Lemma boot_calls_cons_shutdown sr data o :
  boot_calls (ShutdownCalled sr data :: o) = boot_calls o.
Proof. reflexivity. Qed.

Lemma boot_calls_cons_boot sr this o :
  boot_calls (BootCalled sr this :: o) = (sr, this) :: boot_calls o.
Proof. reflexivity. Qed.

Lemma boot_calls_nil : boot_calls [] = [].
Proof. reflexivity. Qed.

Lemma shutdown_calls_cons_emitted event args o :
  shutdown_calls (Emitted event args :: o) = shutdown_calls o.
Proof. reflexivity. Qed.

Lemma shutdown_calls_cons_boot sr this o :
  shutdown_calls (BootCalled sr this :: o) = shutdown_calls o.
Proof. reflexivity. Qed.

Lemma shutdown_calls_cons_shutdown sr data o :
  shutdown_calls (ShutdownCalled sr data :: o) = (sr, data) :: shutdown_calls o.
Proof. reflexivity. Qed.

Lemma shutdown_calls_nil : shutdown_calls [] = [].
Proof. reflexivity. Qed.

Lemma failures_nil mode : failures mode [] = [].
Proof. by destruct mode. Qed.

Create Rewrite HintDb log.
#[global] Hint Rewrite boot_calls_app shutdown_calls_app failures_app emissions_app
  boot_calls_emitted shutdown_calls_emitted failures_emitted
  shutdown_calls_step_log boot_calls_step_log
  failures_shutdown_step failures_boot_shutdown_step
  boot_calls_cons_emitted boot_calls_cons_shutdown boot_calls_cons_boot boot_calls_nil
  shutdown_calls_cons_emitted shutdown_calls_cons_boot shutdown_calls_cons_shutdown
  shutdown_calls_nil failures_nil
  @app_nil_r @app_nil_l : log.

Lemma boot_successes_cons_ok sr this response calls :
  step_outcome (s_boot sr this) = inl response ->
  boot_successes ((sr, this) :: calls) = (sr, response) :: boot_successes calls.
Proof. intros H. unfold boot_successes, boot_settlement. simpl. by rewrite H. Qed.

Lemma boot_successes_cons_failed sr this error calls :
  step_outcome (s_boot sr this) = inr error ->
  boot_successes ((sr, this) :: calls) = boot_successes calls.
Proof. intros H. unfold boot_successes, boot_settlement. simpl. by rewrite H. Qed.

Lemma boot_successes_app calls1 calls2 :
  boot_successes (calls1 ++ calls2) = boot_successes calls1 ++ boot_successes calls2.
Proof. apply omap_app. Qed.

Lemma shutdown_successes_cons_ok sr data response calls :
  step_outcome (s_shutdown sr data) = inl response ->
  shutdown_successes ((sr, data) :: calls) = s_name sr :: shutdown_successes calls.
Proof. intros H. unfold shutdown_successes, shutdown_settlement. simpl. by rewrite H. Qed.

Lemma shutdown_successes_cons_failed sr data error calls :
  step_outcome (s_shutdown sr data) = inr error ->
  shutdown_successes ((sr, data) :: calls) = shutdown_successes calls.
Proof. intros H. unfold shutdown_successes, shutdown_settlement. simpl. by rewrite H. Qed.

Lemma shutdown_successes_app calls1 calls2 :
  shutdown_successes (calls1 ++ calls2) =
  shutdown_successes calls1 ++ shutdown_successes calls2.
Proof. apply omap_app. Qed.

Lemma failures_boot_call sr this o :
  boot_calls o = [(sr, this)] ->
  failures Boot o =
  match step_outcome (s_boot sr this) with
  | inl _ => []
  | inr e => [(s_name sr, e)]
  end.
Proof.
  intros Hcalls. unfold failures. rewrite Hcalls. simpl.
  unfold failure_of, boot_settlement. simpl.
  by destruct (step_outcome (s_boot sr this)).
Qed.

Lemma boot_successes_nil : boot_successes [] = [].
Proof. reflexivity. Qed.

Lemma shutdown_successes_nil : shutdown_successes [] = [].
Proof. reflexivity. Qed.

Lemma store_results_nil m : store_results m [] = m.
Proof. reflexivity. Qed.

#[global] Hint Rewrite boot_successes_nil shutdown_successes_nil store_results_nil
  boot_successes_app shutdown_successes_app : log.

#[global] Arguments failures : simpl never.
#[global] Arguments boot_calls : simpl never.
#[global] Arguments shutdown_calls : simpl never.
#[global] Arguments emissions : simpl never.
#[global] Arguments boot_successes : simpl never.
#[global] Arguments shutdown_successes : simpl never.
#[global] Arguments store_results : simpl never.
#[global] Arguments lifecycle_loop : simpl never.

Lemma store_results_cons m sr response results :
  store_results m ((sr, response) :: results) =
  store_results (<[s_name sr := response]> m) results.
Proof. reflexivity. Qed.

Lemma store_results_app m results1 results2 :
  store_results m (results1 ++ results2) =
  store_results (store_results m results1) results2.
Proof. apply foldl_app. Qed.

(** ** The calls a boot callable makes on the orchestrator *)

Lemma quiet_registration_unfold sr :
  quiet_registration sr = quiet_calls (hd_calls sr).
Proof. by destruct sr. Qed.

Lemma called_back_cons cb calls pl :
  called_back (cb :: calls) pl = called_back calls (call_hd cb pl).
Proof. reflexivity. Qed.

(** The calls change the handler table and the staged list, and nothing
    else. *)
Lemma call_hd_fields cb pl :
  aborted (call_hd cb pl) = aborted pl /\
  booted (call_hd cb pl) = booted pl /\
  services (call_hd cb pl) = services pl /\
  serviceRegistrations (call_hd cb pl) = serviceRegistrations pl /\
  options (call_hd cb pl) = options pl /\
  bootProcess (call_hd cb pl) = bootProcess pl /\
  shutdownProcess (call_hd cb pl) = shutdownProcess pl.
Proof.
  destruct cb as [event fn|sr]; [done|]. simpl.
  unfold registerService. by destruct (aborted pl) eqn:Ha.
Qed.

Lemma called_back_fields calls pl :
  aborted (called_back calls pl) = aborted pl /\
  booted (called_back calls pl) = booted pl /\
  services (called_back calls pl) = services pl /\
  serviceRegistrations (called_back calls pl) = serviceRegistrations pl /\
  options (called_back calls pl) = options pl /\
  bootProcess (called_back calls pl) = bootProcess pl /\
  shutdownProcess (called_back calls pl) = shutdownProcess pl.
Proof.
  revert pl. induction calls as [|cb calls IH]; intros pl; [done|].
  rewrite called_back_cons.
  destruct (IH (call_hd cb pl)) as (-> & -> & -> & -> & -> & -> & ->).
  apply call_hd_fields.
Qed.

(** The registrations that the calls hand to [registerService] are staged,
    in order, unless the abort signal is set. *)
Lemma called_back_staged calls pl :
  serviceRegistrationsStaged (called_back calls pl) =
  serviceRegistrationsStaged pl ++
  (if aborted pl then [] else stage <$> registrations_of calls).
Proof.
  revert pl. induction calls as [|cb calls IH]; intros pl.
  { simpl. destruct (aborted pl); by rewrite app_nil_r. }
  rewrite called_back_cons, IH.
  destruct (call_hd_fields cb pl) as (-> & _).
  destruct cb as [event fn|sr]; [done|]. simpl.
  unfold registerService. destruct (aborted pl) eqn:Ha; simpl; [done|].
  by rewrite <- app_assoc.
Qed.

Lemma handlers_quiet_on event fn pl :
  (forall args, fn args = None) -> handlers_quiet pl -> handlers_quiet (on event fn pl).
Proof.
  intros Hfn Hq event' fn' args. unfold on. simpl.
  destruct (decide (event' = event)) as [->|Hne].
  - intros [= <-]. apply Hfn.
  - apply Hq.
Qed.

Lemma quiet_call_hd cb pl :
  quiet_calls [cb] -> quiet pl -> quiet (call_hd cb pl).
Proof.
  intros [Hcb _] [Hq Hst]. destruct cb as [event fn|sr]; simpl.
  - split; [by apply handlers_quiet_on|done].
  - unfold registerService. destruct (aborted pl); [done|].
    split; [done|]. simpl. apply Forall_app. split; [done|].
    apply Forall_singleton. simpl. by rewrite <- quiet_registration_unfold.
Qed.

Lemma quiet_called_back calls pl :
  quiet_calls calls -> quiet pl -> quiet (called_back calls pl).
Proof.
  revert pl. induction calls as [|cb calls IH]; intros pl Hcalls Hq; [done|].
  rewrite called_back_cons. destruct Hcalls as [Hcb Hcalls].
  apply IH; [done|]. apply quiet_call_hd; [|done]. by split.
Qed.

(** A state that differs from a quiet one in neither the handlers nor the
    staged list is quiet. *)
Lemma quiet_frame pl pl' :
  eventsHandlers pl' = eventsHandlers pl ->
  serviceRegistrationsStaged pl' = serviceRegistrationsStaged pl ->
  quiet pl -> quiet pl'.
Proof. unfold quiet, handlers_quiet. by intros -> ->. Qed.

Lemma handlers_quiet_frame pl pl' :
  eventsHandlers pl' = eventsHandlers pl -> handlers_quiet pl -> handlers_quiet pl'.
Proof. unfold handlers_quiet. intros ->. auto. Qed.

Lemma emitted_frame event args pl pl' :
  eventsHandlers pl' = eventsHandlers pl -> emitted event args pl' = emitted event args pl.
Proof. unfold emitted. by intros ->. Qed.

(** The iterations that the staged registrations account for. *)
Lemma staged_iterations_app regs1 regs2 :
  staged_iterations (regs1 ++ regs2) =
  staged_iterations regs1 + staged_iterations regs2.
Proof. unfold staged_iterations. by rewrite map_app, list_sum_app. Qed.

Lemma iterations_of_unfold sr :
  iterations_of sr = S (calls_iterations (hd_calls sr)).
Proof. by destruct sr. Qed.

Lemma staged_iterations_registrations calls :
  staged_iterations (stage <$> registrations_of calls) = calls_iterations calls.
Proof.
  induction calls as [|[event fn|sr] calls IH]; [done|exact IH|].
  unfold calls_iterations. simpl. fold (calls_iterations calls).
  rewrite <- IH. unfold staged_iterations at 1. simpl.
  fold (staged_iterations (stage <$> registrations_of calls)).
  by rewrite iterations_of_unfold.
Qed.

(** ** Steps, whatever the handlers do *)

Ltac run_body :=
  unfold lifecycle_step, await_race, bind, try_catch,
    emit, get, observe, ret, throw, modify.

(** Case analysis on every handler lookup, handler call, race and test on
    the response of the goal. *)
Ltac crunch_handlers :=
  repeat (simpl;
          match goal with
          | H : eventsHandlers ?s ?k = _ |- context [eventsHandlers ?s ?k] =>
              rewrite H
          | |- context [eventsHandlers ?s ?k] =>
              destruct (eventsHandlers s k) as [?fn|] eqn:?
          | |- context [?fn ?a] =>
              match type of fn with Handler => destruct (fn a) eqn:? end
          | |- context [instanceof_GlobalTimeoutExceededError ?a] =>
              destruct (instanceof_GlobalTimeoutExceededError a) eqn:?
          | |- context [race ?s] => destruct (race s) eqn:?
          | |- context [strict_eq_str ?r ?t] => destruct (strict_eq_str r t) eqn:?
          end).

(** A boot step invokes its callable at most once, with the orchestrator
    as it stands, and no shutdown callable.  Either the
    [bootServiceStarted] handler throws and nothing else happens, or the
    callable is invoked, the calls it makes on the orchestrator are carried
    out and, if the step succeeds, the registration is activated and the
    result stored. *)
Lemma lifecycle_step_boot_any sr pl :
  let r := lifecycle_step Boot sr pl in
  shutdown_calls (obs_of r) = [] /\
  ((boot_calls (obs_of r) = [] /\ state_of r = pl /\
    completion_of r <> Normal tt) \/
   (boot_calls (obs_of r) = [(sr, view_of pl)] /\
    match step_outcome (s_boot sr (view_of pl)) with
    | inl response => state_of r = booted_state sr response pl
    | inr _ =>
        state_of r = called_back (s_hd_calls sr) pl /\
        completion_of r <> Normal tt
    end)).
Proof.
  unfold step_outcome, completion_of, state_of, obs_of, booted_state. run_body.
  crunch_handlers; simpl; autorewrite with log;
    (split; [done|]); first [by left|by right].
Qed.

(** A shutdown step invokes its callable at most once, with the value
    stored under the name of the registration, and no boot callable.  If
    the step succeeds the stored value is removed; nothing else changes. *)
Lemma lifecycle_step_shutdown_any sr pl :
  let r := lifecycle_step Shutdown sr pl in
  let data := getService (s_name sr) pl in
  boot_calls (obs_of r) = [] /\
  ((shutdown_calls (obs_of r) = [] /\ state_of r = pl /\
    completion_of r <> Normal tt) \/
   (shutdown_calls (obs_of r) = [(sr, data)] /\
    state_of r =
      match step_outcome (s_shutdown sr data) with
      | inl _ => shut_state sr pl
      | inr _ => pl
      end)).
Proof.
  unfold step_outcome, completion_of, state_of, obs_of, shut_state. run_body.
  crunch_handlers; simpl; autorewrite with log;
    (split; [done|]); first [by left|by right].
Qed.

(** ** Steps, when no handler throws *)

Section QuietSteps.

Variable pl : ProcessLifecycle.
Hypothesis handlers_do_not_throw : handlers_quiet pl.

Lemma emit_quiet event args :
  emit event args pl = (Normal tt, pl, emitted event args pl).
Proof.
  unfold emit, emitted.
  destruct (eventsHandlers pl event) as [fn|] eqn:Hfn; [|reflexivity].
  by rewrite (handlers_do_not_throw _ _ args Hfn).
Qed.

Lemma lifecycle_step_shutdown_quiet sr :
  let data := getService (s_name sr) pl in
  lifecycle_step Shutdown sr pl =
  match step_outcome (s_shutdown sr data) with
  | inl _ => (Normal tt, shut_state sr pl, step_log sr data None pl)
  | inr error =>
      (if instanceof_GlobalTimeoutExceededError error
       then Throw error else Normal tt,
       pl, step_log sr data (Some error) pl)
  end.
Proof.
  intros data. unfold lifecycle_step, bind at 1. rewrite emit_quiet.
  unfold try_catch, await_race, step_outcome, step_log, bind, get, observe, ret,
    throw, modify.
  fold data.
  destruct (race (s_shutdown sr data)) as [response|error]; simpl.
  - destruct (strict_eq_str response "timeout"); simpl.
    { rewrite emit_quiet. simpl; rewrite ?app_nil_r; reflexivity. }
    destruct (strict_eq_str response "global-timeout"); simpl.
    { rewrite emit_quiet. simpl; rewrite ?app_nil_r; reflexivity. }
    unfold emit, emitted, shut_state; simpl.
    destruct (eventsHandlers pl (ServiceEnded Shutdown)) as [fn|] eqn:Hfn;
      [rewrite (handlers_do_not_throw _ _ _ Hfn)|]; simpl; rewrite ?app_nil_r;
      reflexivity.
  - rewrite emit_quiet.
    destruct (instanceof_GlobalTimeoutExceededError error); simpl;
      rewrite ?app_nil_r; reflexivity.
Qed.

(** A boot step completes exactly when its callable settles with a value
    that is neither of the two timeout strings, and otherwise throws the
    error of the step. *)
Lemma lifecycle_step_boot_quiet sr :
  handlers_quiet (called_back (s_hd_calls sr) pl) ->
  let r := lifecycle_step Boot sr pl in
  boot_calls (obs_of r) = [(sr, view_of pl)] /\
  match step_outcome (s_boot sr (view_of pl)) with
  | inl response =>
      completion_of r = Normal tt /\ state_of r = booted_state sr response pl
  | inr error =>
      completion_of r = Throw error /\
      state_of r = called_back (s_hd_calls sr) pl
  end.
Proof.
  intros Hq. unfold step_outcome, completion_of, state_of, obs_of, booted_state.
  run_body.
  crunch_handlers; simpl; autorewrite with log; try done;
    exfalso;
    match goal with
    | Hfn : eventsHandlers pl _ = Some ?fn, Hc : ?fn _ = Some _ |- _ =>
        rewrite (handlers_do_not_throw _ _ _ Hfn) in Hc; discriminate
    | Hfn : eventsHandlers (called_back _ pl) _ = Some ?fn,
      Hc : ?fn _ = Some _ |- _ =>
        rewrite (Hq _ _ _ Hfn) in Hc; discriminate
    end.
Qed.

End QuietSteps.

(** ** Relations that a method body maintains *)

Section Tracks.

Variable P : ProcessLifecycle -> ProcessLifecycle -> list Obs -> Prop.
Hypothesis P_refl : forall pl, P pl pl [].
Hypothesis P_trans : forall pl1 pl2 pl3 o1 o2,
  P pl1 pl2 o1 -> P pl2 pl3 o2 -> P pl1 pl3 (o1 ++ o2).

Lemma tracks_ret {A} (a : A) : tracks P (ret a).
Proof. intros pl. apply P_refl. Qed.

Lemma tracks_throw {A} e : tracks P (@throw A e).
Proof. intros pl. apply P_refl. Qed.

Lemma tracks_get : tracks P get.
Proof. intros pl. apply P_refl. Qed.

Lemma tracks_modify g : (forall pl, P pl (g pl) []) -> tracks P (modify g).
Proof. intros Hg pl. apply Hg. Qed.

Lemma tracks_bind {A C} (m : M A) (k : A -> M C) :
  tracks P m -> (forall a, tracks P (k a)) -> tracks P (bind m k).
Proof.
  intros Hm Hk pl. unfold bind. specialize (Hm pl).
  destruct (m pl) as [[[a|e] pl1] o1]; [|exact Hm].
  specialize (Hk a pl1). destruct (k a pl1) as [[c pl2] o2].
  unfold state_of, obs_of in *; simpl in *. by apply P_trans with pl1.
Qed.

Lemma tracks_try_catch {A} (body : M A) (handler : Value -> M A) :
  tracks P body -> (forall e, tracks P (handler e)) ->
  tracks P (try_catch body handler).
Proof.
  intros Hm Hk pl. unfold try_catch. specialize (Hm pl).
  destruct (body pl) as [[[a|e] pl1] o1]; [exact Hm|].
  specialize (Hk e pl1). destruct (handler e pl1) as [[c pl2] o2].
  unfold state_of, obs_of in *; simpl in *. by apply P_trans with pl1.
Qed.

Lemma tracks_for_of {A} (l : list A) (body : A -> M unit) :
  (forall x, tracks P (body x)) -> tracks P (for_of l body).
Proof.
  intros Hbody. induction l as [|x rest IH]; simpl.
  - apply tracks_ret.
  - apply tracks_bind; auto.
Qed.

Hypothesis P_emitted : forall pl event args, P pl pl [Emitted event args].

Lemma tracks_emit event args : tracks P (emit event args).
Proof.
  intros pl. unfold emit, state_of, obs_of.
  destruct (eventsHandlers pl event) as [fn|]; [|apply P_refl].
  destruct (fn args); apply P_emitted.
Qed.

Lemma tracks_boot_loop fuel :
  (forall sr, tracks P (lifecycle_step Boot sr)) ->
  forall index, tracks P (boot_loop fuel index).
Proof.
  intros Hstep. induction fuel as [|fuel IH]; intros index; simpl.
  - apply tracks_ret.
  - apply tracks_bind; [apply tracks_get|]. intros pl.
    destruct (serviceRegistrationsStaged pl !! index) as [sr|]; [|apply tracks_ret].
    apply tracks_bind; [apply Hstep|]. intros _. apply IH.
Qed.

Lemma tracks_lifecycle_loop mode pl :
  (forall sr, tracks P (lifecycle_step mode sr)) ->
  tracks P (lifecycle_loop mode pl).
Proof.
  intros Hstep. unfold lifecycle_loop. destruct mode.
  - by apply tracks_boot_loop.
  - by apply tracks_for_of.
Qed.

(** The [try]/[catch] statement of a pass. *)
Lemma tracks_pass_try self mode pl0 :
  (forall sr, tracks P (lifecycle_step mode sr)) ->
  (forall pl, P pl (set_booted (is_boot mode) pl) []) ->
  (mode = Boot -> tracks P self) ->
  tracks P
    (try_catch
       (emit (Started mode) NoArgs ;;
        lifecycle_loop mode pl0 ;;
        modify (set_booted (is_boot mode)) ;;
        emit (Ended mode) (Obj None None))
       (fun error =>
          emit (Ended mode) (Obj None (Some error)) ;;
          match mode with Boot => self | Shutdown => ret tt end)).
Proof.
  intros Hstep Hbooted Hself. apply tracks_try_catch.
  - apply tracks_bind; [apply tracks_emit|]. intros _.
    apply tracks_bind; [by apply tracks_lifecycle_loop|]. intros _.
    apply tracks_bind; [apply tracks_modify; auto|]. intros _.
    apply tracks_emit.
  - intros e. apply tracks_bind; [apply tracks_emit|]. intros _.
    destruct mode; [by apply Hself|apply tracks_ret].
Qed.

Lemma tracks_executeLifecycle_body self mode :
  (forall sr, tracks P (lifecycle_step mode sr)) ->
  (mode = Shutdown -> forall pl, P pl (set_aborted true pl) []) ->
  (forall pl, P pl (set_booted (is_boot mode) pl) []) ->
  (mode = Boot -> tracks P self) ->
  tracks P (executeLifecycle_body self mode).
Proof.
  intros Hstep Habort Hbooted Hself. unfold executeLifecycle_body.
  apply tracks_bind; [apply tracks_get|]. intros pl0.
  apply tracks_bind.
  { destruct mode; [apply tracks_ret|apply tracks_modify; auto]. }
  intros _. by apply tracks_pass_try.
Qed.

End Tracks.

(** A relation on the states alone is maintained by a step as soon as the
    assignments of the step maintain it. *)
Lemma tracks_step_states (R : ProcessLifecycle -> ProcessLifecycle -> Prop) mode sr :
  (forall pl, R pl pl) ->
  (mode = Boot -> forall pl, R pl (called_back (s_hd_calls sr) pl)) ->
  (mode = Boot -> forall response pl, R pl (booted_state sr response pl)) ->
  (mode = Shutdown -> forall pl, R pl (shut_state sr pl)) ->
  tracks (fun pl pl' _ => R pl pl') (lifecycle_step mode sr).
Proof.
  intros Hrefl Hcalls Hbooted Hshut pl. destruct mode.
  - destruct (lifecycle_step_boot_any sr pl) as [_ [(_ & -> & _)|[_ Hstate]]];
      [done|].
    destruct (step_outcome _) as [response|error].
    + rewrite Hstate. by apply Hbooted.
    + destruct Hstate as [-> _]. by apply Hcalls.
  - destruct (lifecycle_step_shutdown_any sr pl) as [_ [(_ & -> & _)|[_ ->]]];
      [done|].
    destruct (step_outcome _); [by apply Hshut|done].
Qed.

(** ** Fields that a pass leaves alone *)

Section Frame.

Context {B : Type} (f : ProcessLifecycle -> B).

Hypothesis f_set_services : forall m pl, f (set_services m pl) = f pl.

(** A shutdown pass changes [#services], [#booted] and the abort flag
    only. *)
Lemma preserves_shutdown_step sr : preserves f (lifecycle_step Shutdown sr).
Proof.
  apply (tracks_step_states (fun pl pl' => f pl' = f pl)); try done.
  intros _ pl. apply f_set_services.
Qed.

Hypothesis f_set_aborted : forall b pl, f (set_aborted b pl) = f pl.
Hypothesis f_set_booted : forall b pl, f (set_booted b pl) = f pl.

Lemma preserves_shutdown_pass self :
  preserves f (executeLifecycle_body self Shutdown).
Proof.
  apply (tracks_executeLifecycle_body (fun pl pl' _ => f pl' = f pl));
    try done; try congruence.
  intros sr. apply preserves_shutdown_step.
Qed.

(** A boot pass, and the shutdown pass that follows a failure, change in
    addition [#serviceRegistrations], [#serviceRegistrationsStaged] and
    [#eventsHandlers]. *)
Hypothesis f_set_registrations : forall l pl, f (set_registrations l pl) = f pl.
Hypothesis f_called_back : forall calls pl, f (called_back calls pl) = f pl.

Lemma preserves_boot_step sr : preserves f (lifecycle_step Boot sr).
Proof.
  apply (tracks_step_states (fun pl pl' => f pl' = f pl)); try done.
  intros _ response pl. unfold booted_state.
  by rewrite f_set_services, f_set_registrations, f_called_back.
Qed.

Lemma preserves_executeLifecycle mode : preserves f (executeLifecycle mode).
Proof.
  unfold executeLifecycle.
  apply (tracks_executeLifecycle_body (fun pl pl' _ => f pl' = f pl));
    try done; try congruence.
  - intros sr. destruct mode; [apply preserves_boot_step|apply preserves_shutdown_step].
  - intros _. apply preserves_shutdown_pass.
Qed.

End Frame.

(** ** The state a boot step leaves *)

Lemma booted_state_fields sr response pl :
  let pl' := booted_state sr response pl in
  aborted pl' = aborted pl /\
  booted pl' = booted pl /\
  services pl' = <[s_name sr := response]> (services pl) /\
  serviceRegistrations pl' = serviceRegistrations pl ++ [sr] /\
  serviceRegistrationsStaged pl' =
    serviceRegistrationsStaged (called_back (s_hd_calls sr) pl) /\
  eventsHandlers pl' = eventsHandlers (called_back (s_hd_calls sr) pl) /\
  bootProcess pl' = bootProcess pl /\
  shutdownProcess pl' = shutdownProcess pl.
Proof.
  unfold booted_state. simpl.
  by destruct (called_back_fields (s_hd_calls sr) pl)
    as (-> & -> & -> & -> & _ & -> & ->).
Qed.

(** A boot step that completes has invoked its callable, which settled
    with a value that is neither of the timeout strings. *)
Lemma lifecycle_step_boot_normal sr pl pl1 o1 :
  lifecycle_step Boot sr pl = (Normal tt, pl1, o1) ->
  exists response,
    step_outcome (s_boot sr (view_of pl)) = inl response /\
    boot_calls o1 = [(sr, view_of pl)] /\ shutdown_calls o1 = [] /\
    pl1 = booted_state sr response pl.
Proof.
  intros Hstep. pose proof (lifecycle_step_boot_any sr pl) as Hany.
  rewrite Hstep in Hany. unfold completion_of, state_of, obs_of in Hany.
  simpl in Hany. destruct Hany as [Hno [(_ & _ & Hc)|[Hcalls Hstate]]]; [done|].
  destruct (step_outcome _) as [response|error]; [by exists response|].
  by destruct Hstate.
Qed.

(** A boot step that throws has invoked its callable at most once, and has
    activated the registration only if the step had succeeded (it is then
    the [bootServiceEnded] handler that threw). *)
Lemma lifecycle_step_boot_throw sr pl e pl1 o1 :
  lifecycle_step Boot sr pl = (Throw e, pl1, o1) ->
  shutdown_calls o1 = [] /\
  ((boot_calls o1 = [] /\ pl1 = pl) \/
   (boot_calls o1 = [(sr, view_of pl)] /\
    pl1 = match step_outcome (s_boot sr (view_of pl)) with
          | inl response => booted_state sr response pl
          | inr _ => called_back (s_hd_calls sr) pl
          end)).
Proof.
  intros Hstep. pose proof (lifecycle_step_boot_any sr pl) as Hany.
  rewrite Hstep in Hany. unfold completion_of, state_of, obs_of in Hany.
  simpl in Hany. destruct Hany as [Hno [(Hcalls & Hstate & _)|[Hcalls Hstate]]].
  - split; [done|]. by left.
  - split; [done|]. right. split; [done|].
    destruct (step_outcome _); [done|]. by destruct Hstate.
Qed.

(** A boot step only adds to the staged list, and what it adds accounts
    for no more iterations than the calls of its boot callable. *)
Lemma lifecycle_step_boot_staged sr pl :
  exists new,
    serviceRegistrationsStaged (state_of (lifecycle_step Boot sr pl)) =
      serviceRegistrationsStaged pl ++ new /\
    staged_iterations new <= calls_iterations (s_hd_calls sr).
Proof.
  assert (Hcalls : exists new,
    serviceRegistrationsStaged (called_back (s_hd_calls sr) pl) =
      serviceRegistrationsStaged pl ++ new /\
    staged_iterations new <= calls_iterations (s_hd_calls sr)).
  { rewrite called_back_staged. eexists. split; [done|].
    destruct (aborted pl); [unfold staged_iterations; simpl; lia|].
    by rewrite staged_iterations_registrations. }
  destruct (lifecycle_step_boot_any sr pl) as [_ [(_ & -> & _)|[_ Hstate]]].
  - exists []. rewrite app_nil_r. split; [done|]. unfold staged_iterations. simpl. lia.
  - destruct (step_outcome _) as [response|error].
    + rewrite Hstate.
      by destruct (booted_state_fields sr response pl) as (_ & _ & _ & _ & -> & _).
    + by destruct Hstate as [-> _].
Qed.

Lemma staged_grows_step sr :
  tracks (fun pl pl' _ => staged_grows pl pl') (lifecycle_step Boot sr).
Proof.
  intros pl. destruct (lifecycle_step_boot_staged sr pl) as (new & Hnew & _).
  unfold staged_grows. rewrite Hnew. by apply prefix_app_r.
Qed.

(** ** The boot loop has fuel enough *)

Lemma staged_iterations_drop regs i sr :
  regs !! i = Some sr ->
  staged_iterations (drop i regs) =
  S (calls_iterations (s_hd_calls sr)) + staged_iterations (drop (S i) regs).
Proof.
  intros Hi. by rewrite (drop_S _ _ _ Hi).
Qed.

Lemma staged_iterations_none regs i :
  staged_iterations (drop i regs) = 0 -> regs !! i = None.
Proof.
  intros Hzero. destruct (regs !! i) as [sr|] eqn:Hi; [|done].
  rewrite (staged_iterations_drop _ _ _ Hi) in Hzero. lia.
Qed.

Lemma boot_loop_S fuel index pl :
  boot_loop (S fuel) index pl =
  match serviceRegistrationsStaged pl !! index with
  | None => (Normal tt, pl, [])
  | Some sr =>
      match lifecycle_step Boot sr pl with
      | (Normal _, pl1, o1) =>
          let '(c, pl2, o2) := boot_loop fuel (S index) pl1 in (c, pl2, o1 ++ o2)
      | (Throw e, pl1, o1) => (Throw e, pl1, o1)
      end
  end.
Proof.
  simpl. unfold bind at 1, get.
  destruct (serviceRegistrationsStaged pl !! index) as [sr|]; [|reflexivity].
  unfold bind. destruct (lifecycle_step Boot sr pl) as [[[[]|e] pl1] o1]; [|reflexivity].
  by destruct (boot_loop fuel (S index) pl1) as [[c pl2] o2].
Qed.

(** With as much fuel as the registrations from [index] on account for,
    the loop runs until the staged list is exhausted or a step throws. *)
Lemma boot_loop_run fuel :
  forall index pl,
    staged_iterations (drop index (serviceRegistrationsStaged pl)) <= fuel ->
    boot_run index pl
      (completion_of (boot_loop fuel index pl))
      (state_of (boot_loop fuel index pl))
      (obs_of (boot_loop fuel index pl)).
Proof.
  induction fuel as [|fuel IH]; intros index pl Hfuel.
  - apply (boot_run_done index pl), staged_iterations_none. lia.
  - rewrite boot_loop_S.
    destruct (serviceRegistrationsStaged pl !! index) as [sr|] eqn:Hi;
      [|by apply boot_run_done].
    destruct (lifecycle_step_boot_staged sr pl) as (new & Hnew & Hle).
    destruct (lifecycle_step Boot sr pl) as [[[[]|e] pl1] o1] eqn:Hstep;
      unfold state_of in Hnew; simpl in Hnew.
    + assert (Hfuel1 :
        staged_iterations (drop (S index) (serviceRegistrationsStaged pl1)) <= fuel).
      { rewrite Hnew. rewrite drop_app_le
          by (apply lookup_lt_Some in Hi; lia).
        rewrite staged_iterations_app.
        rewrite (staged_iterations_drop _ _ _ Hi) in Hfuel. lia. }
      specialize (IH (S index) pl1 Hfuel1).
      destruct (boot_loop fuel (S index) pl1) as [[c pl2] o2].
      unfold completion_of, state_of, obs_of in *; simpl in *.
      by apply boot_run_step with sr pl1.
    + unfold completion_of, state_of, obs_of; simpl.
      by apply boot_run_stop with sr.
Qed.

(** The relation is a function of the index and the state. *)
Lemma boot_run_functional index pl c pl' o :
  boot_run index pl c pl' o ->
  forall c2 pl2 o2, boot_run index pl c2 pl2 o2 -> (c, pl', o) = (c2, pl2, o2).
Proof.
  induction 1 as [i pl Hi|i pl sr pl1 o1 c pl' o Hi Hstep Hrun IH
                  |i pl sr e pl1 o1 Hi Hstep];
    intros c2 pl2 o2 Hrun2;
    inversion Hrun2 as [? ? Hi2|? ? sr2 pl12 o12 ? ? ? Hi2 Hstep2 Hrun12
                        |? ? sr2 e2 pl12 o12 Hi2 Hstep2]; subst;
    try congruence.
  assert (sr2 = sr) as -> by congruence.
  rewrite Hstep in Hstep2. inversion Hstep2; subst.
  specialize (IH _ _ _ Hrun12). by inversion IH.
Qed.

(** More fuel changes nothing. *)
Lemma boot_loop_fuel fuel index pl :
  staged_iterations (drop index (serviceRegistrationsStaged pl)) <= fuel ->
  boot_loop fuel index pl =
  boot_loop (staged_iterations (drop index (serviceRegistrationsStaged pl))) index pl.
Proof.
  intros Hfuel.
  pose proof (boot_loop_run fuel index pl Hfuel) as Hrun1.
  pose proof (boot_loop_run _ index pl (Nat.le_refl _)) as Hrun2.
  pose proof (boot_run_functional _ _ _ _ _ Hrun1 _ _ _ Hrun2) as Heq.
  destruct (boot_loop fuel index pl) as [[c1 pl1] o1].
  by destruct (boot_loop _ index pl) as [[c2 pl2] o2].
Qed.

Lemma lifecycle_loop_boot_run pl0 pl :
  serviceRegistrationsStaged pl = serviceRegistrationsStaged pl0 ->
  boot_run 0 pl
    (completion_of (lifecycle_loop Boot pl0 pl))
    (state_of (lifecycle_loop Boot pl0 pl))
    (obs_of (lifecycle_loop Boot pl0 pl)).
Proof.
  intros Hstaged. unfold lifecycle_loop. apply boot_loop_run.
  by rewrite Hstaged.
Qed.

(** ** The boot loop, whatever the handlers do *)

Lemma boot_run_staged index pl c pl' o :
  boot_run index pl c pl' o -> staged_grows pl pl'.
Proof.
  unfold staged_grows.
  induction 1 as [i pl Hi|i pl sr pl1 o1 c pl' o Hi Hstep Hrun IH
                  |i pl sr e pl1 o1 Hi Hstep]; [done| |].
  - etrans; [|exact IH]. pose proof (staged_grows_step sr pl) as Hg.
    by rewrite Hstep in Hg.
  - pose proof (staged_grows_step sr pl) as Hg. by rewrite Hstep in Hg.
Qed.

(** The boot callables invoked are those of consecutive entries of the
    staged list as the loop leaves it, from the index the loop starts at. *)
Lemma boot_run_prefix index pl c pl' o :
  boot_run index pl c pl' o ->
  (boot_calls o).*1 `prefix_of` drop index (serviceRegistrationsStaged pl').
Proof.
  induction 1 as [i pl Hi|i pl sr pl1 o1 c pl' o Hi Hstep Hrun IH
                  |i pl sr e pl1 o1 Hi Hstep]; [apply prefix_nil| |].
  - destruct (lifecycle_step_boot_normal _ _ _ _ Hstep)
      as (response & _ & Hcalls & _ & _).
    assert (Hi' : serviceRegistrationsStaged pl' !! i = Some sr).
    { eapply prefix_lookup_Some; [exact Hi|].
      etrans; [|exact (boot_run_staged _ _ _ _ _ Hrun)].
      pose proof (staged_grows_step sr pl) as Hg. by rewrite Hstep in Hg. }
    rewrite boot_calls_app, Hcalls, (drop_S _ _ _ Hi'). simpl.
    by apply prefix_cons.
  - destruct (lifecycle_step_boot_throw _ _ _ _ _ Hstep) as [_ [[-> _]|[-> _]]];
      [apply prefix_nil|].
    assert (Hi' : serviceRegistrationsStaged pl1 !! i = Some sr).
    { eapply prefix_lookup_Some; [exact Hi|].
      pose proof (staged_grows_step sr pl) as Hg. by rewrite Hstep in Hg. }
    rewrite (drop_S _ _ _ Hi'). simpl. apply prefix_cons, prefix_nil.
Qed.

(** Each call is handed the orchestrator with the results of all earlier
    calls stored, and all earlier calls succeeded. *)
Lemma boot_run_views index pl c pl' o :
  boot_run index pl c pl' o ->
  forall i sr this,
    boot_calls o !! i = Some (sr, this) ->
    v_aborted this = aborted pl /\ v_booted this = booted pl /\
    v_services this =
      store_results (services pl) (boot_successes (take i (boot_calls o))) /\
    length (boot_successes (take i (boot_calls o))) = i.
Proof.
  induction 1 as [j pl Hj|j pl sr pl1 o1 c pl' o Hj Hstep Hrun IH
                  |j pl sr e pl1 o1 Hj Hstep]; intros i sr' this Hi.
  - done.
  - destruct (lifecycle_step_boot_normal _ _ _ _ Hstep)
      as (response & Hout & Hcalls & _ & ->).
    rewrite boot_calls_app, Hcalls in Hi |- *. simpl in Hi |- *.
    destruct i as [|i]; simpl in Hi.
    + by inversion Hi.
    + destruct (IH i sr' this Hi) as (Ha & Hb & Hs & Hlen).
      simpl. rewrite (boot_successes_cons_ok _ _ response) by done.
      rewrite store_results_cons. simpl. rewrite Hlen, Ha, Hb, Hs.
      by destruct (booted_state_fields sr response pl) as (-> & -> & -> & _).
  - destruct (lifecycle_step_boot_throw _ _ _ _ _ Hstep)
      as [_ [[Hcalls _]|[Hcalls _]]]; rewrite Hcalls in Hi |- *; [done|].
    destruct i as [|i]; simpl in Hi; [|done]. by inversion Hi.
Qed.

(** If the loop completes, every registration of the staged list, as the
    loop leaves it, has had its callable invoked, and no step has failed. *)
Lemma boot_run_completes index pl pl' o :
  boot_run index pl (Normal tt) pl' o ->
  failures Boot o = [] /\
  (boot_calls o).*1 = drop index (serviceRegistrationsStaged pl').
Proof.
  intros Hrun. remember (Normal tt) as c eqn:Hc.
  induction Hrun as [i pl Hi|i pl sr pl1 o1 c pl' o Hi Hstep Hrun IH
                     |i pl sr e pl1 o1 Hi Hstep]; [| |done].
  - split; [done|]. symmetry. apply drop_ge. by apply lookup_ge_None.
  - destruct (IH Hc) as [Hf Hall].
    destruct (lifecycle_step_boot_normal _ _ _ _ Hstep)
      as (response & Hout & Hcalls & _ & _).
    assert (Hi' : serviceRegistrationsStaged pl' !! i = Some sr).
    { eapply prefix_lookup_Some; [exact Hi|].
      etrans; [|exact (boot_run_staged _ _ _ _ _ Hrun)].
      pose proof (staged_grows_step sr pl) as Hg. by rewrite Hstep in Hg. }
    split.
    + rewrite failures_app, Hf, (failures_boot_call sr (view_of pl)) by done.
      by rewrite Hout.
    + rewrite boot_calls_app, Hcalls, (drop_S _ _ _ Hi'). simpl. f_equal. exact Hall.
Qed.

Lemma boot_effect_refl pl : boot_effect pl pl [].
Proof. unfold boot_effect. by autorewrite with log. Qed.

Lemma boot_effect_trans pl1 pl2 pl3 o1 o2 :
  boot_effect pl1 pl2 o1 -> boot_effect pl2 pl3 o2 -> boot_effect pl1 pl3 (o1 ++ o2).
Proof.
  intros (Hs1 & Hr1 & Hv1) (Hs2 & Hr2 & Hv2). unfold boot_effect.
  autorewrite with log. rewrite Hs1, Hs2, Hr2, Hr1, Hv2, Hv1.
  rewrite store_results_app, fmap_app.
  by rewrite <- app_assoc.
Qed.

Lemma boot_effect_step sr : tracks boot_effect (lifecycle_step Boot sr).
Proof.
  intros pl. unfold boot_effect.
  destruct (lifecycle_step_boot_any sr pl)
    as [-> [(-> & -> & _)|[-> Hstate]]].
  { by rewrite app_nil_r. }
  split; [done|].
  destruct (step_outcome (s_boot sr (view_of pl))) as [response|error] eqn:Hout.
  - rewrite Hstate, (boot_successes_cons_ok _ _ response) by done.
    by destruct (booted_state_fields sr response pl) as (_ & _ & -> & -> & _).
  - destruct Hstate as [-> _].
    rewrite (boot_successes_cons_failed _ _ error) by done.
    destruct (called_back_fields (s_hd_calls sr) pl) as (_ & _ & -> & -> & _).
    by rewrite app_nil_r.
Qed.

Lemma boot_effect_loop pl0 : tracks boot_effect (lifecycle_loop Boot pl0).
Proof.
  apply tracks_lifecycle_loop;
    [apply boot_effect_refl|apply boot_effect_trans|apply boot_effect_step].
Qed.

(** ** What the boot loop stages *)

Lemma staged_by_app calls1 calls2 :
  staged_by (calls1 ++ calls2) = staged_by calls1 ++ staged_by calls2.
Proof. apply bind_app. Qed.

Lemma staging_effect_refl pl : staging_effect pl pl [].
Proof.
  unfold staging_effect. autorewrite with log. split; [done|].
  destruct (aborted pl); by rewrite app_nil_r.
Qed.

Lemma staging_effect_trans pl1 pl2 pl3 o1 o2 :
  staging_effect pl1 pl2 o1 -> staging_effect pl2 pl3 o2 ->
  staging_effect pl1 pl3 (o1 ++ o2).
Proof.
  intros [Ha1 Hs1] [Ha2 Hs2]. unfold staging_effect.
  rewrite Ha2, Ha1, Hs2, Hs1, Ha1. split; [done|].
  autorewrite with log. rewrite staged_by_app.
  destruct (aborted pl1); by rewrite <- ?app_assoc.
Qed.

Lemma staging_effect_step sr : tracks staging_effect (lifecycle_step Boot sr).
Proof.
  intros pl. unfold staging_effect.
  assert (Hcalled :
    aborted (called_back (s_hd_calls sr) pl) = aborted pl /\
    serviceRegistrationsStaged (called_back (s_hd_calls sr) pl) =
      serviceRegistrationsStaged pl ++
      (if aborted pl then [] else staged_by [(sr, view_of pl)])).
  { split; [by destruct (called_back_fields (s_hd_calls sr) pl) as (-> & _)|].
    rewrite called_back_staged. unfold staged_by. simpl. by rewrite app_nil_r. }
  destruct (lifecycle_step_boot_any sr pl) as [_ [(-> & -> & _)|[-> Hstate]]].
  { split; [done|]. destruct (aborted pl); by rewrite app_nil_r. }
  destruct (step_outcome (s_boot sr (view_of pl))) as [response|error].
  - rewrite Hstate.
    destruct (booted_state_fields sr response pl) as (-> & _ & _ & _ & -> & _).
    split; [done|apply Hcalled].
  - by destruct Hstate as [-> _].
Qed.

Lemma staging_effect_loop pl0 : tracks staging_effect (lifecycle_loop Boot pl0).
Proof.
  apply tracks_lifecycle_loop;
    [apply staging_effect_refl|apply staging_effect_trans
    |apply staging_effect_step].
Qed.

(** ** The shutdown loop, whatever the handlers do *)

Lemma shutdown_effect_refl pl : shutdown_effect pl pl [].
Proof.
  unfold shutdown_effect. autorewrite with log. split_and!; try done;
    intros nm; by rewrite bool_decide_false by apply not_elem_of_nil.
Qed.

Lemma shutdown_effect_trans pl1 pl2 pl3 o1 o2 :
  shutdown_effect pl1 pl2 o1 -> shutdown_effect pl2 pl3 o2 ->
  shutdown_effect pl1 pl3 (o1 ++ o2).
Proof.
  intros (Hb1 & Hh1 & Hs1 & Hr1 & Hv1) (Hb2 & Hh2 & Hs2 & Hr2 & Hv2).
  unfold shutdown_effect. autorewrite with log.
  rewrite Hb1, Hb2, Hh2, Hh1, Hs2, Hs1, Hr2, Hr1. split_and!; try done.
  intros nm. rewrite Hv2, Hv1.
  destruct (decide (nm ∈ shutdown_successes (shutdown_calls o2))) as [Hin2|Hnot2].
  { rewrite (bool_decide_true _ Hin2).
    rewrite bool_decide_true; [done|]. apply elem_of_app. by right. }
  rewrite (bool_decide_false _ Hnot2).
  destruct (decide (nm ∈ shutdown_successes (shutdown_calls o1))) as [Hin1|Hnot1].
  { rewrite (bool_decide_true _ Hin1).
    rewrite bool_decide_true; [done|]. apply elem_of_app. by left. }
  rewrite (bool_decide_false _ Hnot1).
  rewrite bool_decide_false; [done|]. by intros [?|?]%elem_of_app.
Qed.

Lemma shutdown_effect_emitted pl event args :
  shutdown_effect pl pl [Emitted event args].
Proof.
  unfold shutdown_effect. autorewrite with log. split_and!; try done;
    intros nm; by rewrite bool_decide_false by apply not_elem_of_nil.
Qed.

(** A state that differs from another in neither of the registries and
    in none of the stored results. *)
Lemma shutdown_effect_fields pl pl' :
  eventsHandlers pl' = eventsHandlers pl ->
  serviceRegistrationsStaged pl' = serviceRegistrationsStaged pl ->
  serviceRegistrations pl' = serviceRegistrations pl ->
  services pl' = services pl ->
  shutdown_effect pl pl' [].
Proof.
  intros Hh Hs Hr Hv. unfold shutdown_effect. autorewrite with log.
  split_and!; try done;
    intros nm; rewrite Hv; by rewrite bool_decide_false by apply not_elem_of_nil.
Qed.

Lemma shutdown_effect_step sr : tracks shutdown_effect (lifecycle_step Shutdown sr).
Proof.
  intros pl. unfold shutdown_effect.
  destruct (lifecycle_step_shutdown_any sr pl)
    as [-> [(-> & -> & _)|[-> ->]]].
  { split_and!; try done;
      intros nm; by rewrite bool_decide_false by apply not_elem_of_nil. }
  destruct (step_outcome (s_shutdown sr (getService (s_name sr) pl)))
    as [response|error] eqn:Hout.
  - rewrite (shutdown_successes_cons_ok _ _ response) by done.
    split_and!; try done. intros nm. unfold shut_state. simpl.
    autorewrite with log.
    destruct (decide (nm = s_name sr)) as [->|Hne].
    + rewrite lookup_delete_eq. by rewrite bool_decide_true by left.
    + rewrite lookup_delete_ne by done.
      rewrite bool_decide_false; [done|].
      by intros ?%list_elem_of_singleton.
  - rewrite (shutdown_successes_cons_failed _ _ error) by done.
    split_and!; try done;
      intros nm; autorewrite with log;
      by rewrite bool_decide_false by apply not_elem_of_nil.
Qed.

(** A shutdown pass, whatever the handlers do, removes the results of the
    services whose step succeeded and leaves the handlers, the staged list
    and the active list as they were. *)
Lemma shutdown_effect_pass self :
  tracks shutdown_effect (executeLifecycle_body self Shutdown).
Proof.
  apply tracks_executeLifecycle_body;
    [apply shutdown_effect_refl|apply shutdown_effect_trans
    |apply shutdown_effect_emitted|apply shutdown_effect_step
    |intros _ pl; by apply shutdown_effect_fields
    |intros pl; by apply shutdown_effect_fields
    |done].
Qed.

(** ** The shutdown loop, when no handler throws *)

Lemma shutdown_loop_cons sr rest pl :
  shutdown_loop (sr :: rest) pl =
  match lifecycle_step Shutdown sr pl with
  | (Normal _, pl1, o1) =>
      let '(c, pl2, o2) := shutdown_loop rest pl1 in (c, pl2, o1 ++ o2)
  | (Throw e, pl1, o1) => (Throw e, pl1, o1)
  end.
Proof. reflexivity. Qed.

Lemma shutdown_loop_run l :
  forall pl, handlers_quiet pl ->
    shutdown_run l pl
      (completion_of (shutdown_loop l pl))
      (state_of (shutdown_loop l pl))
      (obs_of (shutdown_loop l pl)).
Proof.
  induction l as [|sr rest IH]; intros pl Hq.
  - constructor.
  - rewrite shutdown_loop_cons.
    rewrite lifecycle_step_shutdown_quiet; [|done]. simpl.
    destruct (step_outcome _) as [response|error] eqn:Hout.
    + assert (Hq' : handlers_quiet (shut_state sr pl))
        by (by apply (handlers_quiet_frame pl)).
      specialize (IH _ Hq').
      destruct (shutdown_loop rest _) as [[c pl2] o2].
      by apply run_shut with response.
    + destruct (instanceof_GlobalTimeoutExceededError error) eqn:Hglobal.
      * by apply run_shut_aborted.
      * specialize (IH _ Hq).
        destruct (shutdown_loop rest _) as [[c pl2] o2].
        by apply run_shut_failed.
Qed.


Lemma shutdown_run_prefix l pl c pl' o :
  shutdown_run l pl c pl' o -> (shutdown_calls o).*1 `prefix_of` l.
Proof.
  induction 1; autorewrite with log; simpl.
  - apply prefix_nil.
  - apply prefix_cons; auto.
  - apply prefix_cons; auto.
  - apply prefix_cons, prefix_nil.
Qed.

(** The loop only touches [#services]. *)
Lemma shutdown_run_frame l pl c pl' o :
  shutdown_run l pl c pl' o ->
  booted pl' = booted pl /\ aborted pl' = aborted pl /\
  eventsHandlers pl' = eventsHandlers pl /\
  serviceRegistrations pl' = serviceRegistrations pl.
Proof. induction 1; try done; by destruct IHshutdown_run as (-> & -> & -> & ->). Qed.




(** ** One pass *)

(** [#executeLifecycle] is its [try]/[catch] statement, run from the state
    in which the abort signal has been set if the mode is ["shutdown"]. *)
Lemma executeLifecycle_body_try self mode pl :
  executeLifecycle_body self mode pl =
  try_catch
    (emit (Started mode) NoArgs ;;
     lifecycle_loop mode pl ;;
     modify (set_booted (is_boot mode)) ;;
     emit (Ended mode) (Obj None None))
    (fun error =>
       emit (Ended mode) (Obj None (Some error)) ;;
       match mode with Boot => self | Shutdown => ret tt end)
    (pass_start mode pl).
Proof.
  unfold executeLifecycle_body, bind at 1, get. unfold bind at 1.
  destruct mode; simpl;
    match goal with |- context [try_catch ?b ?h ?s] =>
      destruct (try_catch b h s) as [[[?|?] ?] ?] end; reflexivity.
Qed.

Lemma emit_state event args pl : state_of (emit event args pl) = pl.
Proof.
  unfold emit, state_of. destruct (eventsHandlers pl event) as [fn|]; [|done].
  by destruct (fn args).
Qed.

Lemma emit_calls event args pl :
  boot_calls (obs_of (emit event args pl)) = [] /\
  shutdown_calls (obs_of (emit event args pl)) = [].
Proof.
  unfold emit, obs_of. destruct (eventsHandlers pl event) as [fn|]; [|done].
  by destruct (fn args).
Qed.

(** A shutdown pass in which no handler throws. *)
Lemma executeLifecycle_shutdown_quiet self pl :
  handlers_quiet pl ->
  exists c pl1 o1,
    shutdown_run (reverse (serviceRegistrations pl)) (set_aborted true pl) c pl1 o1 /\
    executeLifecycle_body self Shutdown pl =
      (Normal tt, pass_end c pl1, pass_log c o1 pl).
Proof.
  intros Hq.
  assert (Hq0 : handlers_quiet (set_aborted true pl))
    by (by apply (handlers_quiet_frame pl)).
  pose proof (shutdown_loop_run (reverse (serviceRegistrations pl)) _ Hq0) as Hrun.
  destruct (shutdown_run_frame _ _ _ _ _ Hrun) as (_ & _ & Hh & _).
  rewrite executeLifecycle_body_try. unfold pass_start, lifecycle_loop.
  unfold try_catch, bind at 1. rewrite (emit_quiet _ Hq0).
  unfold bind at 1.
  destruct (shutdown_loop (reverse (serviceRegistrations pl)) (set_aborted true pl))
    as [[c pl1] o1].
  unfold completion_of, state_of, obs_of in *; simpl in *.
  assert (Hq1 : handlers_quiet pl1) by (by apply (handlers_quiet_frame pl)).
  exists c, pl1, o1. split; [exact Hrun|].
  unfold pass_log, pass_end.
  rewrite (emitted_frame _ _ pl (set_aborted true pl)) by done.
  destruct c as [[]|e]; simpl.
  - unfold bind, modify.
    rewrite (emit_quiet (set_booted false pl1));
      [|by apply (handlers_quiet_frame pl1)].
    rewrite (emitted_frame _ _ pl (set_booted _ pl1)) by done. simpl.
    by rewrite ?app_nil_r.
  - unfold bind. rewrite (emit_quiet _ Hq1).
    rewrite (emitted_frame _ _ pl pl1) by done. simpl.
    by rewrite ?app_nil_r, <- ?app_assoc.
Qed.

Lemma boot_calls_pass_log c o1 pl : boot_calls (pass_log c o1 pl) = boot_calls o1.
Proof. unfold pass_log. by autorewrite with log. Qed.

Lemma shutdown_calls_pass_log c o1 pl :
  shutdown_calls (pass_log c o1 pl) = shutdown_calls o1.
Proof. unfold pass_log. by autorewrite with log. Qed.

Lemma failures_pass_log mode c o1 pl :
  failures mode (pass_log c o1 pl) = failures mode o1.
Proof. unfold pass_log. by autorewrite with log. Qed.

#[global] Hint Rewrite boot_calls_pass_log shutdown_calls_pass_log failures_pass_log
  : log.

(** A boot pass, whatever the handlers do: either the [bootStarted]
    handler throws and the loop is never entered, or the log of the pass is
    what that handler and the loop log, followed by what the rest of the
    pass logs.  [P] is any relation that the rest of the pass maintains. *)
Lemma executeLifecycle_boot_sandwich
    (P : ProcessLifecycle -> ProcessLifecycle -> list Obs -> Prop) self pl :
  (forall pl, P pl pl []) ->
  (forall pl1 pl2 pl3 o1 o2, P pl1 pl2 o1 -> P pl2 pl3 o2 -> P pl1 pl3 (o1 ++ o2)) ->
  (forall pl event args, P pl pl [Emitted event args]) ->
  (forall pl, P pl (set_booted true pl) []) ->
  tracks P self ->
  forall c pl' o,
    executeLifecycle_body self Boot pl = (c, pl', o) ->
    let started := emit (Started Boot) NoArgs pl in
    let loop := lifecycle_loop Boot pl pl in
    (completion_of started <> Normal tt /\ P pl pl' o) \/
    (completion_of started = Normal tt /\
     exists o2, o = obs_of started ++ obs_of loop ++ o2 /\ P (state_of loop) pl' o2).
Proof.
  intros Hrefl Htrans Hemitted Hbooted Hself c pl' o Hrun started loop.
  assert (Hemit : forall event args, tracks P (emit event args))
    by (intros; by apply tracks_emit).
  assert (Hcatch : forall e,
    tracks P (emit (Ended Boot) (Obj None (Some e)) ;; self)).
  { intros e. apply tracks_bind; [done..|]. by intros _. }
  rewrite executeLifecycle_body_try in Hrun. unfold pass_start in Hrun.
  unfold try_catch, bind at 1 in Hrun. fold started in Hrun.
  pose proof (emit_state (Started Boot) NoArgs pl) as Hstate. fold started in Hstate.
  pose proof (Hemit (Started Boot) NoArgs pl) as HPs. fold started in HPs.
  destruct started as [[[[]|e0] pl0] oS];
    unfold completion_of, state_of, obs_of in *; simpl in *; subst pl0.
  - right. split; [done|]. unfold bind at 1 in Hrun. fold loop in Hrun.
    destruct loop as [[[[]|e1] pl1] o1]; simpl.
    + unfold bind at 1, modify in Hrun.
      pose proof (Hemit (Ended Boot) (Obj None None) (set_booted true pl1)) as HPe.
      pose proof (emit_state (Ended Boot) (Obj None None) (set_booted true pl1))
        as Hse.
      destruct (emit (Ended Boot) (Obj None None) (set_booted true pl1))
        as [[[[]|e2] pl2] oE];
        unfold state_of, obs_of in *; simpl in *; subst pl2.
      * inversion Hrun; subst. exists oE. split; [done|].
        apply (Htrans _ _ _ [] oE (Hbooted pl1) HPe).
      * pose proof (Hcatch e2 (set_booted true pl1)) as HPc.
        destruct ((emit (Ended Boot) (Obj None (Some e2)) ;; self)
                    (set_booted true pl1)) as [[c3 pl3] o3].
        unfold state_of, obs_of in *; simpl in *.
        inversion Hrun; subst. exists (oE ++ o3).
        split; [by rewrite <- !app_assoc|].
        apply (Htrans _ (set_booted true pl1)); [|done].
        apply (Htrans _ _ _ [] oE (Hbooted pl1) HPe).
    + pose proof (Hcatch e1 pl1) as HPc.
      destruct ((emit (Ended Boot) (Obj None (Some e1)) ;; self) pl1)
        as [[c3 pl3] o3].
      unfold state_of, obs_of in *; simpl in *.
      inversion Hrun; subst. exists o3. split; [by rewrite <- !app_assoc|done].
  - left. split; [done|].
    pose proof (Hcatch e0 pl) as HPc.
    destruct ((emit (Ended Boot) (Obj None (Some e0)) ;; self) pl)
      as [[c3 pl3] o3].
    unfold state_of, obs_of in *; simpl in *.
    inversion Hrun; subst. by apply (Htrans _ pl).
Qed.

(** ** The boot loop, when no handler throws *)

(** A boot step in a quiet state: the handlers that the boot callable
    registers do not throw either, so the step ends as its callable
    settles. *)
Lemma lifecycle_step_boot_quiet_state sr pl :
  quiet pl -> sr ∈ serviceRegistrationsStaged pl ->
  let r := lifecycle_step Boot sr pl in
  quiet (state_of r) /\
  boot_calls (obs_of r) = [(sr, view_of pl)] /\
  match step_outcome (s_boot sr (view_of pl)) with
  | inl response =>
      completion_of r = Normal tt /\ state_of r = booted_state sr response pl
  | inr error =>
      completion_of r = Throw error /\
      state_of r = called_back (s_hd_calls sr) pl
  end.
Proof.
  intros Hq Hin r. subst r.
  assert (Hq0 : quiet (called_back (s_hd_calls sr) pl)).
  { apply quiet_called_back; [|done].
    destruct Hq as [_ Hst]. by apply (proj1 (Forall_forall _ _) Hst). }
  destruct (lifecycle_step_boot_quiet pl (proj1 Hq) sr (proj1 Hq0))
    as [Hcalls Hout].
  split; [|by split].
  destruct (step_outcome _) as [response|error].
  - destruct Hout as [_ ->].
    destruct (booted_state_fields sr response pl)
      as (_ & _ & _ & _ & Hs & Hh & _).
    by apply (quiet_frame (called_back (s_hd_calls sr) pl)).
  - by destruct Hout as [_ ->].
Qed.

(** When no handler throws, the loop keeps it so, and it throws only the
    error of its only failed step, which is the last one invoked. *)
Lemma boot_run_quiet index pl c pl' o :
  boot_run index pl c pl' o ->
  quiet pl ->
  quiet pl' /\
  match c with
  | Normal _ => True
  | Throw e =>
      exists sr this, last (boot_calls o) = Some (sr, this) /\
        step_outcome (s_boot sr this) = inr e /\
        failures Boot o = [(s_name sr, e)]
  end.
Proof.
  induction 1 as [i pl Hi|i pl sr pl1 o1 c pl' o Hi Hstep Hrun IH
                  |i pl sr e pl1 o1 Hi Hstep]; intros Hq; [done| |].
  - destruct (lifecycle_step_boot_quiet_state sr pl Hq) as (Hq1 & Hcalls & Hout).
    { by eapply list_elem_of_lookup_2. }
    rewrite Hstep in Hq1, Hcalls, Hout.
    unfold completion_of, state_of, obs_of in *; simpl in *.
    destruct (IH Hq1) as [Hq' Hc]. split; [done|].
    destruct c as [[]|e]; [done|].
    destruct Hc as (sr' & this & Hlast & Houte & Hf).
    exists sr', this. rewrite boot_calls_app, Hcalls, failures_app, Hf.
    rewrite (failures_boot_call sr (view_of pl)) by done.
    destruct (step_outcome (s_boot sr (view_of pl))); [|by destruct Hout].
    split_and!; [|done..]. simpl. destruct (boot_calls o); [done|]. exact Hlast.
  - destruct (lifecycle_step_boot_quiet_state sr pl Hq) as (Hq1 & Hcalls & Hout).
    { by eapply list_elem_of_lookup_2. }
    rewrite Hstep in Hq1, Hcalls, Hout.
    unfold completion_of, state_of, obs_of in *; simpl in *.
    split; [done|]. exists sr, (view_of pl). rewrite Hcalls.
    rewrite (failures_boot_call sr (view_of pl)) by done.
    destruct (step_outcome (s_boot sr (view_of pl))) as [response|error];
      destruct Hout as [Hc _]; [done|]. by inversion Hc.
Qed.

(** ** A boot pass *)

(** A boot pass, whatever the handlers do.  Either the [bootStarted]
    handler throws, or the loop runs; what follows the loop (the [bootEnded]
    handler and, after a failure, the shutdown pass) invokes no boot
    callable, removes stored results and changes neither the handlers nor
    the registries. *)
Lemma executeLifecycle_boot_any pl :
  let r := executeLifecycle Boot pl in
  let started := emit (Started Boot) NoArgs pl in
  exists pl1 o1 o2,
    ((completion_of started <> Normal tt /\ pl1 = pl /\ o1 = []) \/
     (completion_of started = Normal tt /\
      exists c, lifecycle_loop Boot pl pl = (c, pl1, o1) /\
                boot_run 0 pl c pl1 o1)) /\
    boot_effect pl pl1 o1 /\
    boot_calls (obs_of r) = boot_calls o1 /\
    shutdown_calls (obs_of r) = shutdown_calls o2 /\
    (exists oa ob, obs_of r = oa ++ ob /\ shutdown_calls oa = [] /\ boot_calls ob = []) /\
    shutdown_effect pl1 (state_of r) o2.
Proof.
  intros r started. subst r. unfold executeLifecycle.
  destruct (executeLifecycle_body _ Boot pl) as [[c pl'] o] eqn:Hrun.
  destruct (executeLifecycle_boot_sandwich shutdown_effect _ pl
              shutdown_effect_refl shutdown_effect_trans shutdown_effect_emitted
              (fun pl => shutdown_effect_fields pl (set_booted true pl)
                           eq_refl eq_refl eq_refl eq_refl)
              (shutdown_effect_pass (ret tt)) c pl' o Hrun)
    as [[Hthrows HP]|[Hok (o2 & -> & HP)]];
    unfold state_of, obs_of; simpl.
  - exists pl, [], o. split; [by left|]. split; [apply boot_effect_refl|].
    pose proof HP as (Hb & _).
    split; [by rewrite Hb|]. split; [done|]. split; [|done].
    by exists [], o.
  - pose proof (boot_effect_loop pl pl) as Hloop.
    pose proof (lifecycle_loop_boot_run pl pl eq_refl) as Hbrun.
    destruct (lifecycle_loop Boot pl pl) as [[c1 pl1] o1] eqn:Hl.
    unfold completion_of, state_of, obs_of in *; simpl in *.
    destruct (emit_calls (Started Boot) NoArgs pl) as [HbS HsS].
    unfold obs_of in HbS, HsS.
    destruct Hloop as (Hs1 & Hloop).
    pose proof HP as (Hb2 & _).
    exists pl1, o1, o2. split; [right; split; [done|]; by exists c1|].
    split; [done|].
    autorewrite with log. rewrite HbS, HsS, Hb2, Hs1. autorewrite with log.
    do 2 (split; [done|]). split; [|done].
    exists ((emit (Started Boot) NoArgs pl).2 ++ o1), o2.
    rewrite <- app_assoc. split; [done|].
    autorewrite with log. by rewrite HsS, Hs1.
Qed.

(** A boot pass in which no handler throws: the loop runs, and the
    shutdown pass follows if it throws. *)
Lemma executeLifecycle_boot_quiet pl :
  quiet pl ->
  exists c pl1 o1,
    lifecycle_loop Boot pl pl = (c, pl1, o1) /\
    boot_run 0 pl c pl1 o1 /\
    quiet pl1 /\
    match c with
    | Normal _ =>
        executeLifecycle Boot pl =
          (Normal tt, set_booted true pl1,
           emitted (Started Boot) NoArgs pl ++ o1 ++
           emitted (Ended Boot) (Obj None None) pl1)
    | Throw e =>
        exists c2 pl2 o2,
          shutdown_run (reverse (serviceRegistrations pl1))
            (set_aborted true pl1) c2 pl2 o2 /\
          executeLifecycle Boot pl =
            (Normal tt, pass_end c2 pl2,
             emitted (Started Boot) NoArgs pl ++ o1 ++
             emitted (Ended Boot) (Obj None (Some e)) pl1 ++ pass_log c2 o2 pl1)
    end.
Proof.
  intros Hq.
  pose proof (lifecycle_loop_boot_run pl pl eq_refl) as Hrun.
  destruct (lifecycle_loop Boot pl pl) as [[c pl1] o1] eqn:Hloop.
  unfold completion_of, state_of, obs_of in Hrun; simpl in Hrun.
  destruct (boot_run_quiet _ _ _ _ _ Hrun Hq) as [Hq1 _].
  exists c, pl1, o1. do 3 (split; [done|]).
  assert (Hbody : forall self,
    executeLifecycle_body self Boot pl =
    match c with
    | Normal _ =>
        (Normal tt, set_booted true pl1,
         emitted (Started Boot) NoArgs pl ++ o1 ++
         emitted (Ended Boot) (Obj None None) pl1)
    | Throw e =>
        let '(c2, pl2, o2) := self pl1 in
        (c2, pl2,
         emitted (Started Boot) NoArgs pl ++ o1 ++
         emitted (Ended Boot) (Obj None (Some e)) pl1 ++ o2)
    end).
  { intros self. rewrite executeLifecycle_body_try. unfold pass_start.
    unfold try_catch, bind at 1. rewrite (emit_quiet _ (proj1 Hq)).
    unfold bind at 1. rewrite Hloop.
    destruct c as [[]|e]; simpl.
    - unfold bind, modify.
      rewrite (emit_quiet (set_booted true pl1));
        [|by apply (handlers_quiet_frame pl1); [|apply Hq1]].
      rewrite (emitted_frame _ _ pl1 (set_booted _ pl1)) by done. simpl.
      by rewrite ?app_nil_r.
    - unfold bind. rewrite (emit_quiet _ (proj1 Hq1)).
      destruct (self pl1) as [[c2 pl2] o2]. by rewrite <- !app_assoc. }
  unfold executeLifecycle. rewrite Hbody.
  destruct c as [[]|e]; [done|].
  destruct (executeLifecycle_shutdown_quiet (ret tt) pl1 (proj1 Hq1))
    as (c2 & pl2 & o2 & Hrun2 & ->).
  by exists c2, pl2, o2.
Qed.

(** A boot pass appends to the staged list what the boot callables it
    invokes hand to [registerService], and nothing else. *)
Lemma executeLifecycle_boot_staged pl :
  let r := executeLifecycle Boot pl in
  serviceRegistrationsStaged (state_of r) =
  serviceRegistrationsStaged pl ++
  (if aborted pl then [] else staged_by (boot_calls (obs_of r))).
Proof.
  intros r. subst r.
  destruct (executeLifecycle_boot_any pl)
    as (pl1 & o1 & o2 & Hcase & _ & -> & _ & _ & (_ & _ & -> & _)).
  destruct Hcase as [(_ & -> & ->)|(_ & c & Hloop & _)].
  - apply staging_effect_refl.
  - pose proof (staging_effect_loop pl pl) as [_ Hs].
    by rewrite Hloop in Hs.
Qed.

(** ** Fields that the boot loop leaves alone *)


(** A shutdown pass leaves [#booted] as it was or false. *)
Lemma booted_after_shutdown self pl :
  let pl' := state_of (executeLifecycle_body self Shutdown pl) in
  booted pl' = booted pl \/ booted pl' = false.
Proof.
  apply (tracks_executeLifecycle_body
           (fun pl pl' _ => booted pl' = booted pl \/ booted pl' = false));
    try done; try (intros; by left); try (intros; by right).
  - intros pl1 pl2 pl3 _ _ [->| ->] [->| ->]; auto.
  - intros sr.
    apply (tracks_step_states
             (fun pl pl' => booted pl' = booted pl \/ booted pl' = false));
      try done; intros; by left.
Qed.

(** ** Sequences of calls and the test suite *)

(** "should get the service once it has been booted" *)
Example test_getService :
  let pc := registerService foo (new None) in
  getService "foo" pc = VUndefined /\
  getService "foo" (state_of (boot_ pc)) = VNum 1.
Proof. split; by vm_compute. Qed.

(** "should not run anything if we did call boot without services
    registered" *)
Example test_boot_without_services :
  let r := boot_ (on (Ended Boot) quiet_handler
                    (on (Started Boot) quiet_handler (new None))) in
  booted (state_of r) = true /\ aborted (state_of r) = false /\
  handler_calls (obs_of r) = [(Started Boot, NoArgs); (Ended Boot, Obj None None)].
Proof. repeat split; by vm_compute. Qed.

(** "should not run anything if we did not call boot, registered services
    and call shutdown" *)
Example test_shutdown_without_boot :
  let r := shutdown_ (on (Ended Shutdown) quiet_handler
                        (on (Started Shutdown) quiet_handler
                           (registerService foo (new None)))) in
  booted (state_of r) = false /\ aborted (state_of r) = true /\
  boot_calls (obs_of r) = [] /\ shutdown_calls (obs_of r) = [] /\
  handler_calls (obs_of r) =
    [(Started Shutdown, NoArgs); (Ended Shutdown, Obj None None)].
Proof. repeat split; by vm_compute. Qed.

(** "should boot registered services in the order they where registered" *)
Example test_boot_order :
  let r := boot_ (two_services bar_shutdown_throws) in
  booted (state_of r) = true /\ aborted (state_of r) = false /\
  s_name <$> (boot_calls (obs_of r)).*1 = ["foo"; "bar"] /\
  shutdown_calls (obs_of r) = [] /\
  handler_calls (obs_of r) =
    [(Started Boot, NoArgs);
     (ServiceStarted Boot, Obj (Some "foo") None);
     (ServiceEnded Boot, Obj (Some "foo") None);
     (ServiceStarted Boot, Obj (Some "bar") None);
     (ServiceEnded Boot, Obj (Some "bar") None);
     (Ended Boot, Obj None None)].
Proof. repeat split; by vm_compute. Qed.

(** "should trigger a shutdown if any of the services fails to boot" *)
Example test_failed_boot :
  let r := boot_ failed_boot in
  booted (state_of r) = false /\ aborted (state_of r) = true /\
  s_name <$> (boot_calls (obs_of r)).*1 = ["foo"; "bar"] /\
  shutdown_calls (obs_of r) = [(stage foo, VNum 1)] /\
  handler_calls (obs_of r) =
    [(Started Boot, NoArgs);
     (ServiceStarted Boot, Obj (Some "foo") None);
     (ServiceEnded Boot, Obj (Some "foo") None);
     (ServiceStarted Boot, Obj (Some "bar") None);
     (ServiceEnded Boot, Obj (Some "bar") (Some (VError ErrorC "foo" None)));
     (Ended Boot, Obj None (Some (VError ErrorC "foo" None)));
     (Started Shutdown, NoArgs);
     (ServiceStarted Shutdown, Obj (Some "foo") None);
     (ServiceEnded Shutdown, Obj (Some "foo") None);
     (Ended Shutdown, Obj None None)].
Proof. repeat split; by vm_compute. Qed.

(** "should shutdown the services in the reverse order they where
    registered", bar's shutdown callable throwing *)
Example test_shutdown_order :
  let r := shutdown_ booted_bar_throws in
  booted (state_of r) = false /\ aborted (state_of r) = true /\
  shutdown_calls (obs_of r) =
    [(stage bar_shutdown_throws, VNum 2); (stage foo, VNum 1)] /\
  handler_calls (obs_of r) =
    [(Started Shutdown, NoArgs);
     (ServiceStarted Shutdown, Obj (Some "bar") None);
     (ServiceEnded Shutdown, Obj (Some "bar") (Some (VError ErrorC "foo" None)));
     (ServiceStarted Shutdown, Obj (Some "foo") None);
     (ServiceEnded Shutdown, Obj (Some "foo") None);
     (Ended Shutdown, Obj None None)].
Proof. repeat split; by vm_compute. Qed.

(** A boot callable that registers a service while it boots: the loop of
    the same pass goes on to the new registration, after those that were
    staged before it. *)
Example test_registration_while_booting :
  let r := boot_ registers_while_booting in
  s_name <$> serviceRegistrationsStaged registers_while_booting = ["foo"; "bar"] /\
  s_name <$> (boot_calls (obs_of r)).*1 = ["foo"; "bar"; "late"] /\
  s_name <$> serviceRegistrationsStaged (state_of r) = ["foo"; "bar"; "late"] /\
  s_name <$> serviceRegistrations (state_of r) = ["foo"; "bar"; "late"] /\
  booted (state_of r) = true /\
  getService "late" (state_of r) = VNum 3.
Proof. repeat split; by vm_compute. Qed.

(** A boot callable that registers a handler while it boots: the handler
    is called at the end of the same step.  Here it throws: the step has
    already activated foo and stored its result, the boot pass fails, and
    the shutdown pass shuts foo down. *)
Example test_handler_registered_while_booting :
  let r := boot_ (registerService foo_registers_handler (new None)) in
  handler_calls (obs_of r) =
    [(ServiceEnded Boot, Obj (Some "foo") None);
     (ServiceEnded Boot,
      Obj (Some "foo") (Some (VError ErrorC "handler failed" None)))] /\
  shutdown_calls (obs_of r) = [(stage foo_registers_handler, VNum 1)] /\
  booted (state_of r) = false /\
  completion_of r = Normal (Normal tt).
Proof. repeat split; by vm_compute. Qed.

(** A shutdown callable that returns the string ["global-timeout"] is taken
    for the global timer: its step fails with a [GlobalTimeoutExceededError]
    and the pass stops there. *)
Example test_shutdown_returns_global_timeout :
  let r := shutdown_
             (state_of (boot_ (two_services bar_shutdown_returns_global_timeout))) in
  failures Shutdown (obs_of r) =
    [("bar", VError GlobalTimeoutExceededErrorC "Global timeout exceeded" None)] /\
  s_name <$> (shutdown_calls (obs_of r)).*1 = ["bar"].
Proof. split; by vm_compute. Qed.

(** A shutdown pass sets the abort signal, whatever else happens. *)
Lemma shutdown_sets_signal self pl :
  aborted (state_of (executeLifecycle_body self Shutdown pl)) = true.
Proof.
  rewrite executeLifecycle_body_try.
  pose proof (tracks_pass_try (fun pl pl' _ => aborted pl' = aborted pl)) as Ht.
  specialize (Ht ltac:(done) ltac:(congruence) ltac:(done) self Shutdown pl).
  apply Ht; [|done|done].
  intros sr.
  by apply (tracks_step_states (fun pl pl' => aborted pl' = aborted pl)).
Qed.

(** Once [shutdown()] has run, [registerService] does nothing. *)
Lemma registerService_after_shutdown sr pl :
  shutdownProcess pl = None ->
  registerService sr (state_of (shutdown_ pl)) = state_of (shutdown_ pl).
Proof.
  intros Hmemo. unfold shutdown_. rewrite Hmemo.
  pose proof (shutdown_sets_signal (executeLifecycle_body (ret tt) Shutdown) pl)
    as Habort.
  unfold executeLifecycle.
  destruct (executeLifecycle_body _ Shutdown pl) as [[c pl'] o].
  unfold state_of in *; simpl in *. unfold registerService. simpl. by rewrite Habort.
Qed.

(** ** Memoization *)

(** Once a promise is stored, [boot()] and [shutdown()] hand it back and do
    nothing else. *)
Lemma boot_memoized pl p :
  bootProcess pl = Some p -> boot_ pl = (Normal p, pl, []).
Proof. intros H. unfold boot_. by rewrite H. Qed.

Lemma shutdown_memoized pl p :
  shutdownProcess pl = Some p -> shutdown_ pl = (Normal p, pl, []).
Proof. intros H. unfold shutdown_. by rewrite H. Qed.

Lemma boot_stores_promise pl : is_Some (bootProcess (state_of (boot_ pl))).
Proof.
  unfold boot_. destruct (bootProcess pl) as [p|] eqn:Hp.
  - unfold state_of; simpl. rewrite Hp. eauto.
  - destruct (executeLifecycle Boot pl) as [[c pl'] o]. unfold state_of; simpl. eauto.
Qed.

Lemma shutdown_stores_promise pl : is_Some (shutdownProcess (state_of (shutdown_ pl))).
Proof.
  unfold shutdown_. destruct (shutdownProcess pl) as [p|] eqn:Hp.
  - unfold state_of; simpl. rewrite Hp. eauto.
  - destruct (executeLifecycle Shutdown pl) as [[c pl'] o].
    unfold state_of; simpl. eauto.
Qed.

(** A second [boot()] (or a second [shutdown()]) runs nothing. *)
Lemma boot_twice pl : obs_of (boot_ (state_of (boot_ pl))) = [].
Proof.
  destruct (boot_stores_promise pl) as [p Hp]. by rewrite (boot_memoized _ p).
Qed.

Lemma shutdown_twice pl : obs_of (shutdown_ (state_of (shutdown_ pl))) = [].
Proof.
  destruct (shutdown_stores_promise pl) as [p Hp].
  by rewrite (shutdown_memoized _ p).
Qed.

(** [boot()] leaves [shutdownProcessSymbol] as it found it, even when it
    ran the shutdown procedure. *)
Lemma boot_leaves_shutdownProcess pl :
  shutdownProcess (state_of (boot_ pl)) = shutdownProcess pl.
Proof.
  unfold boot_. destruct (bootProcess pl); [done|].
  pose proof (preserves_executeLifecycle shutdownProcess) as Hp.
  specialize (Hp ltac:(done) ltac:(done) ltac:(done) ltac:(done)).
  specialize (Hp (fun calls pl =>
    proj2 (proj2 (proj2 (proj2 (proj2 (proj2 (called_back_fields calls pl)))))))).
  specialize (Hp Boot pl).
  destruct (executeLifecycle Boot pl) as [[c pl'] o]. exact Hp.
Qed.

(** ** Orchestrators that have not booted *)

Lemma pristine_new opts : pristine (new opts).
Proof. done. Qed.

Lemma pristine_on event fn pl : pristine pl -> pristine (on event fn pl).
Proof. done. Qed.

Lemma pristine_registerService sr pl : pristine pl -> pristine (registerService sr pl).
Proof. unfold registerService. by destruct (aborted pl). Qed.

(** A shutdown pass over an empty list of active registrations, whatever
    the handlers do. *)
Lemma pristine_shutdown pl : pristine pl -> pristine (state_of (shutdown_ pl)).
Proof.
  intros (Hmemo & Hbooted & Hregs & Hsvc). unfold shutdown_.
  destruct (shutdownProcess pl); [done|].
  unfold executeLifecycle.
  pose proof (shutdown_effect_pass (executeLifecycle_body (ret tt) Shutdown) pl)
    as (_ & _ & _ & Hr & Hv).
  pose proof (booted_after_shutdown (executeLifecycle_body (ret tt) Shutdown) pl)
    as Hb.
  pose proof (preserves_shutdown_pass bootProcess ltac:(done) ltac:(done)
                ltac:(done) (executeLifecycle_body (ret tt) Shutdown) pl) as Hp.
  destruct (executeLifecycle_body _ Shutdown pl) as [[c pl'] o].
  unfold state_of, obs_of in *; simpl in *.
  unfold pristine. simpl.
  split_and!; [congruence|destruct Hb; congruence|congruence|].
  apply map_empty. intros nm. rewrite Hv, Hsvc, lookup_empty.
  by destruct (bool_decide _).
Qed.

(** Until [boot()] is called, every orchestrator is pristine. *)
Lemma pristine_before_boot opts cs :
  CallBoot ∉ cs -> pristine (run_calls cs (new opts)).1.
Proof.
  unfold run_calls. generalize (@nil Obs) as o.
  assert (Hgen : forall pl o, pristine pl -> CallBoot ∉ cs ->
            pristine (foldl (fun st c => run_call c st) (pl, o) cs).1).
  { induction cs as [|c cs IH]; intros pl o Hpl Hnot; [done|].
    apply not_elem_of_cons in Hnot as [Hc Hnot]. simpl.
    destruct c as [event fn|sr| |]; simpl.
    - apply IH; [by apply pristine_on|done].
    - apply IH; [by apply pristine_registerService|done].
    - done.
    - apply IH; [by apply pristine_shutdown|done]. }
  intros o Hnot. apply Hgen; [apply pristine_new|done].
Qed.

(** ** Auxiliary facts *)




(** ** Handlers that throw *)





(** * The claims *)

(** ** C1: a failed boot *)




(** ** C2: memoization *)

(** C2. The shutdown procedure runs twice on one orchestrator: foo boots,
    bar fails to boot, [boot()] runs the shutdown procedure itself, and a
    later [shutdown()] finds [shutdownProcessSymbol] unset and runs it
    again.  [shutdownStarted] is emitted twice and foo's shutdown callable is
    invoked twice, the second time with [undefined]. *)
Theorem C2_shutdown_runs_twice_after_failed_boot :
  let o := (run_calls [CallBoot; CallShutdown] failed_boot).2 in
  emissions (Started Shutdown) o = [NoArgs; NoArgs] /\
  (fun call => (s_name call.1, call.2)) <$> shutdown_calls o =
    [("foo", VNum 1); ("foo", VUndefined)].
Proof. split; by vm_compute. Qed.

(** ** C3: the boot pass *)

(** C3, as stated, fails: bar is registered first and throws, so the boot
    callable of foo, registered second, is never invoked. *)
Lemma C3_counterexample :
  let r := executeLifecycle Boot failed_first_boot in
  s_name <$> serviceRegistrationsStaged failed_first_boot = ["bar"; "foo"] /\
  s_name <$> (boot_calls (obs_of r)).*1 = ["bar"] /\
  (boot_calls (obs_of r)).*1 <> serviceRegistrationsStaged failed_first_boot.
Proof.
  split; [by vm_compute|]. split; [by vm_compute|].
  intros Heq. apply (f_equal length) in Heq. by vm_compute in Heq.
Qed.

(** C3 (amended). In a boot pass, whatever the handlers and the boot
    callables do, the staged list is extended by the registrations that the
    boot callables invoked stage during the pass (by none when the abort
    signal is set), and the boot callables invoked are those of an initial
    segment of the staged list as the pass leaves it, in registration order
    and one call each; the call number [i] is handed the orchestrator as it
    stands after the [i] earlier calls, all of which succeeded and have
    their results stored.  When no step fails and no handler throws, every
    registration of that list has its boot callable invoked. *)
Theorem C3_boot_calls_in_registration_order pl :
  let r := executeLifecycle Boot pl in
  let calls := boot_calls (obs_of r) in
  let staged := serviceRegistrationsStaged (state_of r) in
  staged =
    serviceRegistrationsStaged pl ++
    (if aborted pl then [] else staged_by calls) /\
  calls.*1 `prefix_of` staged /\
  (forall i sr this,
     calls !! i = Some (sr, this) ->
     v_aborted this = aborted pl /\ v_booted this = booted pl /\
     v_services this =
       store_results (services pl) (boot_successes (take i calls)) /\
     length (boot_successes (take i calls)) = i) /\
  (quiet pl -> failures Boot (obs_of r) = [] -> calls.*1 = staged).
Proof.
  intros r calls staged. subst r calls staged.
  split; [apply executeLifecycle_boot_staged|].
  assert (Hany :
    let r := executeLifecycle Boot pl in
    (boot_calls (obs_of r)).*1 `prefix_of` serviceRegistrationsStaged (state_of r) /\
    forall i sr this,
      boot_calls (obs_of r) !! i = Some (sr, this) ->
      v_aborted this = aborted pl /\ v_booted this = booted pl /\
      v_services this =
        store_results (services pl) (boot_successes (take i (boot_calls (obs_of r)))) /\
      length (boot_successes (take i (boot_calls (obs_of r)))) = i).
  { intros r. subst r.
    destruct (executeLifecycle_boot_any pl)
      as (pl1 & o1 & o2 & Hcase & _ & -> & _ & _ & (_ & _ & -> & _)).
    destruct Hcase as [(_ & -> & ->)|(_ & c & _ & Hrun)].
    - split; [apply prefix_nil|]. by intros i sr this Hi.
    - split; [exact (boot_run_prefix _ _ _ _ _ Hrun)|].
      exact (boot_run_views _ _ _ _ _ Hrun). }
  destruct Hany as (Hpre & Hviews).
  split; [exact Hpre|]. split; [exact Hviews|].
  intros Hq.
  destruct (executeLifecycle_boot_quiet pl Hq)
    as (c & pl1 & o1 & _ & Hrun & _ & Hc).
  destruct c as [[]|e].
  - rewrite Hc. unfold state_of, obs_of; simpl. autorewrite with log.
    intros _. by destruct (boot_run_completes _ _ _ _ Hrun) as [_ ->].
  - destruct Hc as (c2 & pl2 & o2 & Hrun2 & ->). unfold obs_of; simpl.
    autorewrite with log.
    destruct (boot_run_quiet _ _ _ _ _ Hrun Hq) as [_ (sr & this & _ & _ & Hf)].
    rewrite Hf. done.
Qed.

Lemma C3_witness :
  let r := executeLifecycle Boot registers_while_booting in
  (quiet registers_while_booting /\ failures Boot (obs_of r) = []) /\
  s_name <$> serviceRegistrationsStaged registers_while_booting = ["foo"; "bar"] /\
  s_name <$> serviceRegistrationsStaged (state_of r) = ["foo"; "bar"; "late"] /\
  (boot_calls (obs_of r)).*1 = serviceRegistrationsStaged (state_of r).
Proof.
  intros r.
  assert (H1 : quiet registers_while_booting) by solve_quiet.
  assert (H2 : failures Boot (obs_of r) = []) by (by vm_compute).
  destruct (C3_boot_calls_in_registration_order registers_while_booting)
    as (_ & _ & _ & Hall).
  split; [done|]. do 2 (split; [by vm_compute|]). exact (Hall H1 H2).
Defined.

(** ** C4: failures during a shutdown pass *)

(** C4. In the scenario of the test "should shutdown the services in the
    reverse order they where registered" (foo and bar have booted, bar's
    shutdown callable throws), the failed step does not stop the loop, which
    goes on to shut foo down, and its error is handed to the
    [shutdownServiceEnded] handler; but the failure is recorded nowhere: the
    [shutdownEnded] handler is called with an empty object, where the test
    expects an [AggregateError] holding the error, and the promise resolves.
    When bar's shutdown loses to the global timer instead, the loop stops
    after bar, and foo's shutdown callable is not invoked. *)
Theorem C4_shutdown_failure_is_not_recorded :
  let r := shutdown_ booted_bar_throws in
  shutdown_calls (obs_of r) =
    [(stage bar_shutdown_throws, VNum 2); (stage foo, VNum 1)] /\
  failures Shutdown (obs_of r) = [("bar", VError ErrorC "foo" None)] /\
  emissions (ServiceEnded Shutdown) (obs_of r) =
    [Obj (Some "bar") (Some (VError ErrorC "foo" None)); Obj (Some "foo") None] /\
  emissions (Ended Shutdown) (obs_of r) = [Obj None None] /\
  completion_of r = Normal (Normal tt) /\
  shutdown_calls (obs_of (shutdown_ booted_bar_hangs)) =
    [(stage bar_shutdown_hangs, VNum 2)].
Proof. repeat split; by vm_compute. Qed.

(** ** C5: the error of a pass *)

(** C5. In the scenario of the test "should trigger a shutdown if any of
    the services fails to boot" (foo boots, bar's boot callable throws), the
    [bootEnded] handler receives the error that bar's boot callable threw,
    as it is, where the test expects an [AggregateError] that holds it; and
    in the scenario of the shutdown test above the [shutdownEnded] handler
    receives no error at all. *)
Theorem C5_ended_carries_no_aggregate :
  let boot_ended := emissions (Ended Boot) (obs_of (boot_ failed_boot)) in
  failures Boot (obs_of (boot_ failed_boot)) = [("bar", VError ErrorC "foo" None)] /\
  boot_ended = [Obj None (Some (VError ErrorC "foo" None))] /\
  instanceof_AggregateError (VError ErrorC "foo" None) = false /\
  failures Shutdown (obs_of (shutdown_ booted_bar_throws)) =
    [("bar", VError ErrorC "foo" None)] /\
  emissions (Ended Shutdown) (obs_of (shutdown_ booted_bar_throws)) = [Obj None None].
Proof. repeat split; by vm_compute. Qed.

(** ** C6: the error of a step *)

(** C6. In the scenario of the failed boot, the [bootServiceEnded] handler
    receives for bar the error that bar's boot callable threw, as it is: it
    has no cause and carries neither the name of the service nor the mode,
    where the current tests expect an error with the message [Service "bar"
    boot error] whose cause is what the callable threw.  When the timer of a
    service wins the race at shutdown, the [shutdownServiceEnded] handler
    receives a plain [Error] whose message names the boot mode, where the
    tests expect a message that names the shutdown mode. *)
Theorem C6_service_ended_carries_the_raw_error :
  let thrown := VError ErrorC "foo" None in
  emissions (ServiceEnded Boot) (obs_of (boot_ failed_boot)) =
    [Obj (Some "foo") None; Obj (Some "bar") (Some thrown)] /\
  error_cause thrown = None /\
  error_message thrown = Some "foo" /\
  failures Shutdown (obs_of (shutdown_ booted_bar_slow)) =
    [("bar", VError ErrorC "Service boot timeout exceeded" None)] /\
  emissions (ServiceEnded Shutdown) (obs_of (shutdown_ booted_bar_slow)) =
    [Obj (Some "bar") (Some (VError ErrorC "Service boot timeout exceeded" None));
     Obj (Some "foo") None].
Proof. repeat split; by vm_compute. Qed.

(** ** C7: [booted] after a pass *)

(** C7. In the scenario of the test "should complete shutting down if the
    global shutdown timeout is reached" (foo and bar have booted, bar's
    shutdown callable outlasts the global shutdown timeout), the shutdown
    pass is aborted at bar and [booted], which was true, is still true after
    it, where the test expects false. *)
Theorem C7_booted_after_an_aborted_shutdown :
  let r := shutdown_ booted_bar_hangs in
  booted booted_bar_hangs = true /\
  failures Shutdown (obs_of r) =
    [("bar", VError GlobalTimeoutExceededErrorC "Global timeout exceeded" None)] /\
  s_name <$> (shutdown_calls (obs_of r)).*1 = ["bar"] /\
  emissions (Ended Shutdown) (obs_of r) =
    [Obj None
       (Some (VError GlobalTimeoutExceededErrorC "Global timeout exceeded" None))] /\
  completion_of r = Normal (Normal tt) /\
  booted (state_of r) = true.
Proof. repeat split; by vm_compute. Qed.

(** ** C8: promises and handlers *)




(** ** C9: what a pass leaves behind *)




(** ** C10: registrations that share a name *)

(** A boot step that succeeds, when no handler throws. *)
Lemma boot_step_succeeds sr pl response :
  quiet pl -> sr ∈ serviceRegistrationsStaged pl ->
  step_outcome (s_boot sr (view_of pl)) = inl response ->
  exists o1,
    lifecycle_step Boot sr pl = (Normal tt, booted_state sr response pl, o1) /\
    boot_calls o1 = [(sr, view_of pl)].
Proof.
  intros Hq Hin Hout.
  destruct (lifecycle_step_boot_quiet_state sr pl Hq Hin) as (_ & Hcalls & Hstep).
  rewrite Hout in Hstep. destruct Hstep as [Hc Hs].
  destruct (lifecycle_step Boot sr pl) as [[c pl1] o1].
  unfold completion_of, state_of, obs_of in *; simpl in *. subst.
  by exists o1.
Qed.

Lemma quiet_new opts : quiet (new opts).
Proof. split; [|by apply Forall_nil]. intros event fn args Hfn. discriminate. Qed.

Lemma quiet_registerService sr pl :
  quiet_registration sr -> quiet pl -> quiet (registerService sr pl).
Proof.
  intros Hsr Hq. apply (quiet_call_hd (CallsRegisterService sr)); [|done].
  by split.
Qed.

(** C10. [registerService] stages a second registration under a name that
    is already staged.  When both boot successfully (and their boot
    callables make no call on the orchestrator), both are invoked, both are
    appended to the active registrations and [getService] returns the result
    of the later one.  At shutdown (provided the later one's step does not
    fail with a [GlobalTimeoutExceededError], which would stop the pass) the
    shutdown callables that were registered are both invoked, the later one
    first with the later result, then the earlier one with what the map
    holds by then: [undefined] if the first step succeeded and deleted the
    entry, the later result again if it failed. *)
Theorem C10_registrations_sharing_a_name opts sr1 sr2 v1 v2 :
  name sr1 = name sr2 ->
  hd_calls sr1 = [] ->
  hd_calls sr2 = [] ->
  let pl := registerService sr2 (registerService sr1 (new opts)) in
  step_outcome
    (wrapInPromise (boot sr1)
       {| v_aborted := false; v_booted := false; v_services := ∅ |}) = inl v1 ->
  step_outcome
    (wrapInPromise (boot sr2)
       {| v_aborted := false; v_booted := false;
          v_services := {[name sr1 := v1]} |}) = inl v2 ->
  (forall e, step_outcome (wrapInPromise (shutdown sr2) v2) = inr e ->
             instanceof_GlobalTimeoutExceededError e = false) ->
  let after_boot := state_of (boot_ pl) in
  let calls := shutdown_calls (obs_of (shutdown_ after_boot)) in
  let data1 :=
    match step_outcome (wrapInPromise (shutdown sr2) v2) with
    | inl _ => VUndefined
    | inr _ => v2
    end in
  serviceRegistrationsStaged pl = [stage sr1; stage sr2] /\
  (fun call => s_boot call.1) <$> boot_calls (obs_of (boot_ pl)) =
    [wrapInPromise (boot sr1); wrapInPromise (boot sr2)] /\
  serviceRegistrations after_boot = [stage sr1; stage sr2] /\
  getService (name sr1) after_boot = v2 /\
  calls = [(stage sr2, v2); (stage sr1, data1)] /\
  (fun call => (s_shutdown call.1, call.2)) <$> calls =
    [(wrapInPromise (shutdown sr2), v2); (wrapInPromise (shutdown sr1), data1)].
Proof.
  intros Hname Hcalls1 Hcalls2 pl Hboot1 Hboot2 Hshut after_boot calls data1.
  assert (Hq : quiet pl).
  { apply quiet_registerService; [by rewrite quiet_registration_unfold, Hcalls2|].
    apply quiet_registerService; [by rewrite quiet_registration_unfold, Hcalls1|].
    apply quiet_new. }
  assert (Hstaged : serviceRegistrationsStaged pl = [stage sr1; stage sr2]) by done.
  (* the boot pass *)
  set (pla := booted_state (stage sr1) v1 pl).
  set (plb := booted_state (stage sr2) v2 pla).
  assert (Hpla : pla = set_services (<[name sr1 := v1]> ∅)
                         (set_registrations [stage sr1] pl)).
  { subst pla. unfold booted_state. simpl. by rewrite Hcalls1. }
  assert (Hplb : plb = set_services (<[name sr2 := v2]> (<[name sr1 := v1]> ∅))
                         (set_registrations [stage sr1; stage sr2] pl)).
  { unfold plb, booted_state. cbn [s_hd_calls stage]. rewrite Hcalls2.
    cbn [called_back foldl]. by rewrite Hpla. }
  assert (Hqa : quiet pla).
  { rewrite Hpla. by apply (quiet_frame pl). }
  destruct (boot_step_succeeds (stage sr1) pl v1 Hq) as (oa & Hstepa & Hcallsa);
    [rewrite Hstaged; by left|exact Hboot1|].
  destruct (boot_step_succeeds (stage sr2) pla v2 Hqa) as (ob & Hstepb & Hcallsb);
    [rewrite Hpla; simpl; right; by left|rewrite Hpla; exact Hboot2|].
  fold pla in Hstepa. fold plb in Hstepb.
  assert (Hrun : boot_run 0 pl (Normal tt) plb (oa ++ ob ++ [])).
  { apply boot_run_step with (stage sr1) pla; [done|done|].
    apply boot_run_step with (stage sr2) plb; [by rewrite Hpla|done|].
    apply boot_run_done. by rewrite Hplb. }
  destruct (executeLifecycle_boot_quiet pl Hq)
    as (c & pl1 & o1 & _ & Hrun1 & _ & Hc).
  pose proof (boot_run_functional _ _ _ _ _ Hrun1 _ _ _ Hrun) as Heq.
  inversion Heq; subst c pl1 o1. clear Heq.
  assert (Hafter : after_boot =
            set_bootProcess (Some (Normal tt)) (set_booted true plb)).
  { subst after_boot. unfold boot_.
    change (bootProcess pl) with (@None (Completion unit)). cbv iota beta.
    by rewrite Hc. }
  assert (Hregs : serviceRegistrations after_boot = [stage sr1; stage sr2])
    by (by rewrite Hafter, Hplb).
  assert (Hsvc : services after_boot =
                   <[name sr2 := v2]> (<[name sr1 := v1]> ∅))
    by (by rewrite Hafter, Hplb).
  split; [done|]. split.
  { unfold boot_. change (bootProcess pl) with (@None (Completion unit)).
    cbv iota beta. rewrite Hc. unfold obs_of; simpl. autorewrite with log.
    by rewrite Hcallsa, Hcallsb. }
  split; [exact Hregs|]. split.
  { unfold getService. rewrite Hsvc, Hname. by rewrite lookup_insert_eq. }
  (* the shutdown pass *)
  assert (Hcalls : calls = [(stage sr2, v2); (stage sr1, data1)]).
  { subst calls data1.
    assert (Hq' : handlers_quiet after_boot).
    { rewrite Hafter. apply (handlers_quiet_frame pl); [by rewrite Hplb|apply Hq]. }
    assert (Hmemo : shutdownProcess after_boot = None) by (by rewrite Hafter, Hplb).
    unfold shutdown_, executeLifecycle. rewrite Hmemo.
    destruct (executeLifecycle_shutdown_quiet
                (executeLifecycle_body (ret tt) Shutdown) after_boot Hq')
      as (c & pl1 & o1 & Hrun2 & ->).
    unfold obs_of; cbn [snd]. autorewrite with log.
    rewrite Hregs in Hrun2. change (reverse [stage sr1; stage sr2])
      with [stage sr2; stage sr1] in Hrun2.
    assert (Hdata2 : forall _ : unit,
              getService (s_name (stage sr2)) (set_aborted true after_boot) = v2).
    { intros _. unfold getService. simpl. rewrite Hsvc. by rewrite lookup_insert_eq. }
    assert (Hdata1 : forall _ : unit,
              getService (s_name (stage sr1)) (set_aborted true after_boot) = v2).
    { intros _. unfold getService. simpl. rewrite Hsvc, Hname.
      by rewrite lookup_insert_eq. }
    assert (Hgone : getService (s_name (stage sr1))
                      (shut_state (stage sr2) (set_aborted true after_boot)) =
                    VUndefined).
    { unfold getService, shut_state. simpl. rewrite Hname.
      by rewrite lookup_delete_eq. }
    change (wrapInPromise (shutdown sr2)) with (s_shutdown (stage sr2)).
    inversion Hrun2 as [| ? ? ? r2 ? ? ? Hout2 Hrun3
                        | ? ? ? e2 ? ? ? Hout2 Hg2 Hrun3
                        | ? ? ? e2 Hout2 Hg2]; subst;
      rewrite (Hdata2 tt) in Hout2.
    - rewrite Hout2.
      inversion Hrun3 as [| ? ? ? r1 ? ? ? Hout1 Hrun0
                          | ? ? ? e1 ? ? ? Hout1 Hg1 Hrun0
                          | ? ? ? e1 Hout1 Hg1]; subst;
        try (inversion Hrun0; subst); autorewrite with log;
        by rewrite (Hdata2 tt), Hgone.
    - rewrite Hout2.
      inversion Hrun3 as [| ? ? ? r1 ? ? ? Hout1 Hrun0
                          | ? ? ? e1 ? ? ? Hout1 Hg1 Hrun0
                          | ? ? ? e1 Hout1 Hg1]; subst;
        try (inversion Hrun0; subst); autorewrite with log;
        by rewrite (Hdata2 tt), (Hdata1 tt).
    - specialize (Hshut e2 Hout2). congruence. }
  split; [exact Hcalls|]. by rewrite Hcalls.
Qed.

Lemma C10_witness :
  (name foo = name foo_again /\ hd_calls foo = [] /\ hd_calls foo_again = []) /\
  (let pl := registerService foo_again (registerService foo (new None)) in
   let after_boot := state_of (boot_ pl) in
   getService "foo" after_boot = VNum 7 /\
   (fun call => (s_shutdown call.1, call.2)) <$>
     shutdown_calls (obs_of (shutdown_ after_boot)) =
     [(wrapInPromise (shutdown foo_again), VNum 7);
      (wrapInPromise (shutdown foo), VNum 7)]) /\
  (let pl := registerService foo (registerService foo_again (new None)) in
   let after_boot := state_of (boot_ pl) in
   getService "foo" after_boot = VNum 1 /\
   (fun call => (s_shutdown call.1, call.2)) <$>
     shutdown_calls (obs_of (shutdown_ after_boot)) =
     [(wrapInPromise (shutdown foo), VNum 1);
      (wrapInPromise (shutdown foo_again), VUndefined)]).
Proof.
  split; [by repeat split|]. split.
  - destruct (C10_registrations_sharing_a_name None foo foo_again (VNum 1) (VNum 7))
      as (_ & _ & _ & Hget & _ & Hcalls); [reflexivity..| |].
    + intros e He. vm_compute in He. by inversion He.
    + split; [exact Hget|exact Hcalls].
  - destruct (C10_registrations_sharing_a_name None foo_again foo (VNum 7) (VNum 1))
      as (_ & _ & _ & Hget & _ & Hcalls); [reflexivity..| |].
    + intros e He. by vm_compute in He.
    + split; [exact Hget|exact Hcalls].
Defined.
